(** * HiLo: a guessing game by dichotomy

    A shallow embedding of [Python/hilo.py] and the properties of its range
    tracker (class [HiLo]) and of its answer parser ([_yes_no]).

    Python integers are unbounded, so they are [Z].  A [HiLo] object is a
    record of its three attributes; a method is a function from the state of
    the object to an outcome (a returned value or a raised exception) and the
    state the object is left in, so that what an exception leaves behind can be
    stated. *)

From Stdlib Require Import ZArith List String Ascii Bool Lia.
From Stdlib Require Import Reals Lra.
From Stdlib Require Import DecimalString.
Import ListNotations.

Local Open Scope string_scope.
Local Open Scope Z_scope.

(** ** Exceptions and outcomes *)

(** The exceptions the program can raise.  Every [raise] of the source is a
    [ValueError] told apart by its message; [assert] raises [AssertionError];
    float division raises [ZeroDivisionError]. *)
Inductive exn : Type :=
| ValueError (msg : string)
| AssertionError
| ZeroDivisionError.

Inductive outcome (A : Type) : Type :=
| Return (a : A)
| Raise (e : exn).
Arguments Return {A} a.
Arguments Raise {A} e.

(** The messages of the source, under the names the specification gives to the
    three kinds of failure. *)
Definition AlreadySolvedError : exn := ValueError "problem has been solved already".
Definition NotSolvedError : exn := ValueError "problem not solved yet".
Definition InvalidRangeError (e : exn) : Prop :=
  e = ValueError "range cannot be empty" \/
  e = ValueError "min cannot be negative" \/
  e = ValueError "max must be less than 1000000000".

(** ** Python ranges *)

(** [range(start, stop)], with step 1. *)
Record range : Type := mkRange { start : Z; stop : Z }.

Definition range_len (r : range) : Z := Z.max 0 (stop r - start r).
Definition range_first (r : range) : Z := start r.
Definition range_last (r : range) : Z := stop r - 1.
Definition range_mem (x : Z) (r : range) : bool := (start r <=? x) && (x <? stop r).

(** ** The arithmetic of [float]

    [progress] computes [1.0 - log(a) / log(b)] on floats.  [math.log] and the
    float operations belong to the Python runtime, not to the program, so they
    are taken as an interface: the operations, and the laws of correctly
    rounded arithmetic and of a monotone logarithm that the contract of
    [progress] rests on.  Exact real arithmetic is one instance
    ([RealArith], below). *)
Class FloatArith : Type := {
  float : Type;
  f0 : float;                          (* the literal 0.0 *)
  f1 : float;                          (* the literal 1.0 *)
  fsub : float -> float -> float;      (* x - y *)
  fdiv : float -> float -> float;      (* x / y, for y != 0.0 *)
  fis_zero : float -> bool;            (* x == 0.0 *)
  flog : Z -> float;                   (* math.log(n), for an int n > 0 *)
  fle : float -> float -> Prop;        (* x <= y *)
  flog_one : flog 1 = f0;
  flog_mono : forall a b, 1 <= a <= b -> fle (flog a) (flog b);
  flog_nonzero : forall n, 2 <= n -> fis_zero (flog n) = false;
  fdiv_diag : forall n, 2 <= n -> fdiv (flog n) (flog n) = f1;
  fdiv_zero : forall n, 2 <= n -> fdiv f0 (flog n) = f0;
  fdiv_mono : forall n x y, 2 <= n -> fle x y -> fle (fdiv x (flog n)) (fdiv y (flog n));
  fsub_diag : fsub f1 f1 = f0;
  fsub_zero : fsub f1 f0 = f1;
  fsub_anti : forall x y, fle x y -> fle (fsub f1 y) (fsub f1 x)
}.

(** [math.log(n)] on an int: a domain error unless [n > 0]. *)
Definition math_log `{FloatArith} (n : Z) : outcome float :=
  if n <=? 0 then Raise (ValueError "math domain error") else Return (flog n).

(** [x / y] on floats: an error when the divisor is zero. *)
Definition float_div `{FloatArith} (x y : float) : outcome float :=
  if fis_zero y then Raise ZeroDivisionError else Return (fdiv x y).

(** ** The class [HiLo] *)

Module HiLo.

(** The attributes [self.low], [self.high] and [self.size]. *)
Record t : Type := mk { low : Z; high : Z; size : Z }.

(** A method: from the state of [self] to an outcome and the state left. *)
Definition M (A : Type) : Type := t -> outcome A * t.

Definition ret {A} (a : A) : M A := fun self => (Return a, self).
Definition raise {A} (e : exn) : M A := fun self => (Raise e, self).
Definition bind {A B} (m : M A) (k : A -> M B) : M B :=
  fun self =>
    match m self with
    | (Return a, self') => k a self'
    | (Raise e, self') => (Raise e, self')
    end.
Definition get {A} (f : t -> A) : M A := fun self => (Return (f self), self).
Definition set_low (v : Z) : M unit :=
  fun self => (Return tt, mk v (high self) (size self)).
Definition set_high (v : Z) : M unit :=
  fun self => (Return tt, mk (low self) v (size self)).
Definition assert (b : bool) : M unit :=
  if b then ret tt else raise AssertionError.
Definition lift {A} (o : outcome A) : M A := fun self => (o, self).

Notation "x <- m ;; k" := (bind m (fun x => k))
  (at level 61, m at next level, right associativity).
Notation "m ;;; k" := (bind m (fun _ => k))
  (at level 61, right associativity).

(** [__init__]: the checks, in the order of the source, then the three
    attributes.  A constructor that raises leaves no object. *)
Definition __init__ (minimum maximum : Z) : outcome t :=
  if minimum >? maximum then Raise (ValueError "range cannot be empty")
  else if minimum <? 0 then Raise (ValueError "min cannot be negative")
  else if maximum >=? 1000000000 then Raise (ValueError "max must be less than 1000000000")
  else Return (mk minimum maximum (maximum - minimum + 1)).

Definition upto (maximum : Z) : outcome t := __init__ 1 maximum.

Definition _mid_point : M Z :=
  fun self => (Return ((low self + high self) / 2), self).

Definition solved : M bool :=
  fun self => (Return (low self =? high self), self).

Definition choices : M range :=
  s <- solved ;;
  if s then raise AlreadySolvedError
  else
    lo <- get low ;;
    m <- _mid_point ;;
    assert (lo <=? m) ;;;
    lo' <- get low ;;
    m' <- _mid_point ;;
    ret (mkRange lo' (m' + 1)).

Definition yes : M unit :=
  s <- solved ;;
  if s then raise AlreadySolvedError
  else
    m <- _mid_point ;;
    set_high m ;;;
    lo <- get low ;;
    hi <- get high ;;
    assert (lo <=? hi).

Definition no : M unit :=
  s <- solved ;;
  if s then raise AlreadySolvedError
  else
    m <- _mid_point ;;
    set_low (m + 1) ;;;
    lo <- get low ;;
    hi <- get high ;;
    assert (lo <=? hi).

Definition progress `{FloatArith} : M float :=
  s <- solved ;;
  if s then ret f1
  else
    hi <- get high ;;
    lo <- get low ;;
    num <- lift (math_log (hi - lo + 1)) ;;
    sz <- get size ;;
    den <- lift (math_log sz) ;;
    q <- lift (float_div num den) ;;
    ret (fsub f1 q).

Definition secret : M Z :=
  s <- solved ;;
  if negb s then raise NotSolvedError
  else
    lo <- get low ;;
    hi <- get high ;;
    assert (lo =? hi) ;;;
    get low.

End HiLo.

(** ** The command-line game *)

(** [str.isspace] on the characters a [string] of Rocq holds, the code points
    below 256: the controls TAB to CR and FS to US, the space, NEL and the
    no-break space. *)
Definition isspace (c : ascii) : bool :=
  let n := N_of_ascii c in
  (((9 <=? n) && (n <=? 13)) || ((28 <=? n) && (n <=? 32)) || (n =? 133) || (n =? 160))%N.

Fixpoint lstrip (s : string) : string :=
  match s with
  | EmptyString => EmptyString
  | String c s' => if isspace c then lstrip s' else s
  end.

Fixpoint rstrip (s : string) : string :=
  match s with
  | EmptyString => EmptyString
  | String c s' =>
      match rstrip s' with
      | EmptyString => if isspace c then EmptyString else String c EmptyString
      | r => String c r
      end
  end.

(** [line.strip()]: leading and trailing whitespace removed. *)
Definition strip (s : string) : string := rstrip (lstrip s).

(** Membership in a set of strings ([ans in _yes]). *)
Definition str_in (s : string) (l : list string) : bool := existsb (String.eqb s) l.

Definition _yes : list string := ["y"; "Y"; "yes"; "Yes"; "YES"].
Definition _no : list string := ["n"; "N"; "no"; "No"; "NO"].

Definition _yes_no (line : string) : option bool :=
  let ans := strip line in
  if str_in ans _yes then Some true
  else if str_in ans _no then Some false
  else None.

(** The inner loop of [_play]: lines are read until one is recognised.  The
    result is the answer, the number of "yes or no?" prompts printed, and the
    lines left unread; [None] stands for the [EOFError] of [input] when the
    lines run out first. *)
Fixpoint ask (lines : list string) : option (bool * nat * list string) :=
  match lines with
  | [] => None
  | line :: rest =>
      match _yes_no line with
      | Some b => Some (b, O, rest)
      | None =>
          match ask rest with
          | Some (b, n, rest') => Some (b, S n, rest')
          | None => None
          end
      end
  end.

(** Lower case for the letters A to Z. *)
Definition lower_ascii (c : ascii) : ascii :=
  let n := N_of_ascii c in
  if ((65 <=? n) && (n <=? 90))%N then ascii_of_N (n + 32) else c.

Fixpoint lower (s : string) : string :=
  match s with
  | EmptyString => EmptyString
  | String c s' => String (lower_ascii c) (lower s')
  end.

(** The specification's reading of [_yes_no], to compare with the source: the
    trimmed line is matched against "y", "yes", "n" and "no" without regard to
    the case of its letters. *)
Definition yes_no_case_insensitive (line : string) : option bool :=
  let ans := lower (strip line) in
  if str_in ans ["y"; "yes"] then Some true
  else if str_in ans ["n"; "no"] then Some false
  else None.

(** Strings made of whitespace, and strings that begin or end with it. *)
Fixpoint all_space (s : string) : bool :=
  match s with
  | EmptyString => true
  | String c s' => isspace c && all_space s'
  end.

Definition starts_with_space (s : string) : bool :=
  match s with
  | EmptyString => false
  | String c _ => isspace c
  end.

Fixpoint ends_with_space (s : string) : bool :=
  match s with
  | EmptyString => false
  | String c EmptyString => isspace c
  | String _ s' => ends_with_space s'
  end.

Module Driver.
Import HiLo.

(** A sequence of answers given to the tracker, as calls of [yes] and [no]. *)
Fixpoint record (answers : list bool) : M unit :=
  match answers with
  | [] => ret tt
  | a :: rest => (if a then yes else no) ;;; record rest
  end.

(** The loop of [_play], the reply to each question given by [answer] and
    the printing left out: while the tracker is not solved, ask [choices] and
    record the reply; then read [secret].  [None] when [fuel] iterations did
    not solve the tracker. *)
Fixpoint drive (answer : range -> bool) (fuel : nat) : M (option Z) :=
  s <- solved ;;
  if s then v <- secret ;; ret (Some v)
  else
    match fuel with
    | O => ret None
    | S fuel' =>
        c <- choices ;;
        (if answer c then yes else no) ;;;
        drive answer fuel'
    end.

(** The truthful player whose secret number is [t]. *)
Definition truthful (t : Z) : range -> bool := range_mem t.

End Driver.

(** ** Reachable states *)

(** One successful answer: a call of [yes] or of [no] that returns. *)
Inductive step : HiLo.t -> HiLo.t -> Prop :=
| step_yes : forall h h', HiLo.yes h = (Return tt, h') -> step h h'
| step_no : forall h h', HiLo.no h = (Return tt, h') -> step h h'.

(** Any number of successful answers, one after the other. *)
Inductive steps : HiLo.t -> HiLo.t -> Prop :=
| steps_refl : forall h, steps h h
| steps_snoc : forall h h' h'', steps h h' -> step h' h'' -> steps h h''.

(** The states of a tracker: what a valid construction gives, and what
    successful answers lead to from there. *)
Definition reachable (h : HiLo.t) : Prop :=
  exists minimum maximum h0,
    HiLo.__init__ minimum maximum = Return h0 /\ steps h0 h.

(** The split point of the next question, [floor((low + high) / 2)]. *)
Definition midpoint (h : HiLo.t) : Z := (HiLo.low h + HiLo.high h) / 2.

(** The number of candidates left. *)
Definition width (h : HiLo.t) : Z := HiLo.high h - HiLo.low h + 1.

Definition is_solved (h : HiLo.t) : bool := HiLo.low h =? HiLo.high h.

(** The value [1.0 - log(w) / log(n)] of [progress] with [w] candidates left
    out of [n]. *)
Definition progress_value `{FloatArith} (n w : Z) : float :=
  fsub f1 (fdiv (flog w) (flog n)).

(** The test [x == 0.0] on real numbers. *)
Definition Ris_zero (x : R) : bool := if Req_dec_T x 0 then true else false.

(** ** Answers and the numbers they leave possible *)

(** The answers [answers], given one after the other from the state [h], are
    the ones a player whose number is [x] gives: each is "yes" exactly when [x]
    is in the range that [choices] proposes at that point. *)
Fixpoint consistent (x : Z) (answers : list bool) (h : HiLo.t) : Prop :=
  match answers with
  | [] => True
  | a :: rest =>
      match HiLo.choices h with
      | (Return c, _) => a = range_mem x c
      | (Raise _, _) => False
      end /\
      consistent x rest (snd ((if a then HiLo.yes else HiLo.no) h))
  end.

(** ** The program: standard input, standard output and [main] *)

(** What the program writes: [print(s)] writes [s] and ends the line,
    [input(s)] writes the prompt [s] and waits on the same line. *)
Inductive event : Type :=
| Print (s : string)
| Prompt (s : string).

(** The lines still to be read and what has been written so far. *)
Record world : Type := mkWorld { stdin : list string; stdout : list event }.

(** What can be raised while the program runs: the exceptions of the tracker,
    [EOFError] from [input] at the end of the input, and [IndexError] from
    indexing a range. *)
Inductive py_exn : Type :=
| Exn (e : exn)
| EOFError
| IndexError.

Inductive result (A : Type) : Type :=
| Done (a : A)
| Fail (e : py_exn).
Arguments Done {A} a.
Arguments Fail {A} e.

(** [str(n)] and [f"{n}"] for an int: its decimal digits, after a minus sign
    when it is negative. *)
Definition str (n : Z) : string := NilZero.string_of_int (Z.to_int n).

(** [r[i]] on a range: a negative index counts from the end, and an index
    outside the range is an [IndexError]. *)
Definition range_getitem (r : range) (i : Z) : result Z :=
  let n := range_len r in
  let j := if i <? 0 then i + n else i in
  if (0 <=? j) && (j <? n) then Done (start r + j) else Fail IndexError.

(** The question [_play] asks about the range [choices] returned. *)
Definition question (c : range) : result string :=
  if range_len c =? 1 then
    match range_getitem c 0 with
    | Done a => Done ("Is your number " ++ str a ++ "? ")
    | Fail e => Fail e
    end
  else
    match range_getitem c 0 with
    | Done a =>
        match range_getitem c (-1) with
        | Done b =>
            Done ("Is your number between " ++ str a ++ " and " ++ str b ++ "? ")
        | Fail e => Fail e
        end
    | Fail e => Fail e
    end.

(** The loop [while ans is None: ans = _yes_no(input("  yes or no? "))], entered
    with [ans] being [None]. *)
Fixpoint yes_or_no_loop (lines : list string) (out : list event) : result bool * world :=
  match lines with
  | [] => (Fail EOFError, mkWorld [] (out ++ [Prompt "  yes or no? "]))
  | line :: rest =>
      match _yes_no line with
      | Some b => (Done b, mkWorld rest (out ++ [Prompt "  yes or no? "]))
      | None => yes_or_no_loop rest (out ++ [Prompt "  yes or no? "])
      end
  end.

(** The answers among the lines: what is left of them when the lines that
    [_yes_no] does not recognise are dropped. *)
Definition recognised (lines : list string) : list bool :=
  flat_map (fun line => match _yes_no line with Some b => [b] | None => [] end) lines.

(** A question of [_play] among the events, as opposed to the prompt
    "yes or no?" and to the printed lines. *)
Definition is_question (e : event) : bool :=
  match e with
  | Prompt s => String.prefix "Is your number" s
  | Print _ => false
  end.

Definition is_usage (e : event) : bool :=
  match e with
  | Print s => String.eqb s "Usage: HiLo <max>"
  | Prompt _ => false
  end.

Definition count_events (f : event -> bool) (l : list event) : nat :=
  List.length (filter f l).

Section Program.
Context {F : FloatArith}.

(** [f"{x * 100.0:.0f}"]: the float [x] as a percentage without decimals.  The
    product and the formatting are the runtime's. *)
Variable percent : float -> string.

(** [int(s)] on a string, [None] when it raises [ValueError]. *)
Variable py_int : string -> option Z.

(** A part of the program: from the tracker and the world to a result and
    what they have become; [None] when the iterations allowed for the loop of
    [_play] are used up. *)
Definition PM (A : Type) : Type :=
  HiLo.t * world -> option (result A * (HiLo.t * world)).

Definition pm_ret {A} (a : A) : PM A := fun hw => Some (Done a, hw).

Definition pm_bind {A B} (m : PM A) (k : A -> PM B) : PM B :=
  fun hw =>
    match m hw with
    | Some (Done a, hw') => k a hw'
    | Some (Fail e, hw') => Some (Fail e, hw')
    | None => None
    end.

(** A call of a method of the tracker. *)
Definition call {A} (m : HiLo.M A) : PM A :=
  fun hw =>
    match m (fst hw) with
    | (Return a, h') => Some (Done a, (h', snd hw))
    | (Raise e, h') => Some (Fail (Exn e), (h', snd hw))
    end.

Definition pm_lift {A} (r : result A) : PM A := fun hw => Some (r, hw).

Definition print (s : string) : PM unit :=
  fun hw =>
    Some (Done tt, (fst hw, mkWorld (stdin (snd hw)) (stdout (snd hw) ++ [Print s]))).

Definition input (prompt : string) : PM string :=
  fun hw =>
    match stdin (snd hw) with
    | [] =>
        Some (Fail EOFError, (fst hw, mkWorld [] (stdout (snd hw) ++ [Prompt prompt])))
    | line :: rest =>
        Some (Done line, (fst hw, mkWorld rest (stdout (snd hw) ++ [Prompt prompt])))
    end.

(** [ans = _yes_no(input(question))] and the loop that follows it. *)
Definition read_answer (q : string) : PM bool :=
  pm_bind (input q) (fun line =>
    match _yes_no line with
    | Some b => pm_ret b
    | None =>
        fun hw =>
          let (r, w') := yes_or_no_loop (stdin (snd hw)) (stdout (snd hw)) in
          Some (r, (fst hw, w'))
    end).

(** The loop [while not hilo.solved()] of [_play], for [fuel] iterations at
    most. *)
Fixpoint play_loop (fuel : nat) : PM unit :=
  pm_bind (call HiLo.solved) (fun s =>
    if s then pm_ret tt
    else
      match fuel with
      | O => fun _ => None
      | S fuel' =>
          pm_bind (call HiLo.choices) (fun c =>
          pm_bind (pm_lift (question c)) (fun q =>
          pm_bind (read_answer q) (fun ans =>
          pm_bind (call (if ans then HiLo.yes else HiLo.no)) (fun _ =>
          pm_bind (call HiLo.progress) (fun p =>
          pm_bind (print ("I'm " ++ percent p ++ "% done.")) (fun _ =>
          play_loop fuel'))))))
      end).

Definition _play (fuel : nat) : PM unit :=
  pm_bind (call (HiLo.get HiLo.low)) (fun lo =>
  pm_bind (call (HiLo.get HiLo.high)) (fun hi =>
  pm_bind (print ("Playing HiLo between " ++ str lo ++ " and " ++ str hi ++ ".")) (fun _ =>
  pm_bind (play_loop fuel) (fun _ =>
  pm_bind (call HiLo.secret) (fun v =>
  print ("Your number is: " ++ str v)))))).

Definition _usage (w : world) : world :=
  mkWorld (stdin w) (stdout w ++ [Print "Usage: HiLo <max>"]).

(** [main(argv)]: the usage when there is not exactly one argument, and when a
    [ValueError] comes out of [int], of [HiLo.upto] or of [_play]; any other
    exception goes through. *)
Definition main (fuel : nat) (argv : list string) (w : world) : option (result unit * world) :=
  if negb (List.length argv =? 2)%nat then Some (Done tt, _usage w)
  else
    match py_int (nth 1 argv "") with
    | None => Some (Done tt, _usage w)
    | Some maximum =>
        match HiLo.upto maximum with
        | Raise (ValueError _) => Some (Done tt, _usage w)
        | Raise e => Some (Fail (Exn e), w)
        | Return hilo =>
            match _play fuel (hilo, w) with
            | None => None
            | Some (Fail (Exn (ValueError _)), (_, w')) => Some (Done tt, _usage w')
            | Some (r, (_, w')) => Some (r, w')
            end
        end
    end.

End Program.

(** The answers of a player whose number is [t] and who tells the truth: "yes"
    exactly when [t] is in the range that [choices] proposes, for as long as
    [choices] has a question, and for [fuel] questions at most. *)
Fixpoint truthful_script (t : Z) (fuel : nat) (h : HiLo.t) : list bool :=
  match fuel with
  | O => []
  | S fuel' =>
      match HiLo.choices h with
      | (Return c, _) =>
          let a := range_mem t c in
          a :: truthful_script t fuel' (snd ((if a then HiLo.yes else HiLo.no) h))
      | (Raise _, _) => []
      end
  end.

(** The state an accepted answer leads to, and the progress printed there. *)
Definition answered (b : bool) (h : HiLo.t) : HiLo.t :=
  if b then HiLo.mk (HiLo.low h) (midpoint h) (HiLo.size h)
  else HiLo.mk (midpoint h + 1) (HiLo.high h) (HiLo.size h).

Definition progress_at `{FloatArith} (h : HiLo.t) : float :=
  if HiLo.low h =? HiLo.high h then f1
  else progress_value (HiLo.size h) (width h).

(** * Properties *)

(** ** Exact real arithmetic as an instance of [FloatArith] *)

Lemma ln_IZR_pos (n : Z) : 2 <= n -> (0 < ln (IZR n))%R.
Proof.
  intro Hn. rewrite <- ln_1. apply ln_increasing; [lra|].
  apply IZR_lt. lia.
Qed.

Lemma ln_IZR_mono (a b : Z) : 1 <= a <= b -> (ln (IZR a) <= ln (IZR b))%R.
Proof.
  intros [Ha Hab]. destruct (Z.eq_dec a b) as [->|Hne]; [apply Rle_refl|].
  left. apply ln_increasing; apply IZR_lt; lia.
Qed.

Lemma Ris_zero_ln (n : Z) : 2 <= n -> Ris_zero (ln (IZR n)) = false.
Proof.
  intro Hn. unfold Ris_zero. destruct (Req_dec_T (ln (IZR n)) 0) as [E|_]; [|reflexivity].
  pose proof (ln_IZR_pos n Hn). lra.
Qed.

Lemma Rdiv_ln_diag (n : Z) : 2 <= n -> (ln (IZR n) / ln (IZR n) = 1)%R.
Proof.
  intro Hn. pose proof (ln_IZR_pos n Hn). field. lra.
Qed.

Lemma Rdiv_ln_zero (n : Z) : 2 <= n -> (0 / ln (IZR n) = 0)%R.
Proof.
  intro Hn. pose proof (ln_IZR_pos n Hn). field. lra.
Qed.

Lemma Rdiv_ln_mono (n : Z) (x y : R) :
  2 <= n -> (x <= y)%R -> (x / ln (IZR n) <= y / ln (IZR n))%R.
Proof.
  intros Hn Hxy. pose proof (ln_IZR_pos n Hn) as Hp.
  unfold Rdiv. apply Rmult_le_compat_r; [|exact Hxy].
  left. apply Rinv_0_lt_compat. exact Hp.
Qed.

Lemma Rsub_one_anti (x y : R) : (x <= y)%R -> (1 - y <= 1 - x)%R.
Proof. intro H. lra. Qed.

(** Real numbers with the natural logarithm: the arithmetic of [progress]
    without rounding. *)
#[export] Instance RealArith : FloatArith := {|
  float := R;
  f0 := 0%R;
  f1 := 1%R;
  fsub := Rminus;
  fdiv := Rdiv;
  fis_zero := Ris_zero;
  flog := fun n => ln (IZR n);
  fle := Rle;
  flog_one := ln_1;
  flog_mono := ln_IZR_mono;
  flog_nonzero := Ris_zero_ln;
  fdiv_diag := Rdiv_ln_diag;
  fdiv_zero := Rdiv_ln_zero;
  fdiv_mono := Rdiv_ln_mono;
  fsub_diag := Rminus_diag 1%R;
  fsub_zero := Rminus_0_r 1%R;
  fsub_anti := Rsub_one_anti
|}.

(** ** What each method computes *)

Section MethodEquations.
Import HiLo.

Ltac run := unfold yes, no, choices, secret, solved, _mid_point, set_high, set_low,
  get, assert, bind, ret, raise, lift; simpl.

Lemma solved_eq (h : t) : solved h = (Return (is_solved h), h).
Proof. reflexivity. Qed.

Lemma is_solved_true (h : t) : is_solved h = true <-> low h = high h.
Proof. unfold is_solved. apply Z.eqb_eq. Qed.

Lemma is_solved_false (h : t) : is_solved h = false <-> low h <> high h.
Proof. unfold is_solved. apply Z.eqb_neq. Qed.

Lemma yes_solved (h : t) : is_solved h = true -> yes h = (Raise AlreadySolvedError, h).
Proof. unfold is_solved. intro E. run. rewrite E. reflexivity. Qed.

Lemma no_solved (h : t) : is_solved h = true -> no h = (Raise AlreadySolvedError, h).
Proof. unfold is_solved. intro E. run. rewrite E. reflexivity. Qed.

Lemma choices_solved (h : t) :
  is_solved h = true -> choices h = (Raise AlreadySolvedError, h).
Proof. unfold is_solved. intro E. run. rewrite E. reflexivity. Qed.

Lemma secret_solved (h : t) : is_solved h = true -> secret h = (Return (low h), h).
Proof. unfold is_solved. intro E. run. rewrite E. simpl. rewrite E. reflexivity. Qed.

Lemma secret_unsolved (h : t) :
  is_solved h = false -> secret h = (Raise NotSolvedError, h).
Proof. unfold is_solved. intro E. run. rewrite E. reflexivity. Qed.

(** On an unsolved state [yes] stores the midpoint in [high] and then checks
    its assertion: when the check fails the store has already happened. *)
Lemma yes_unsolved (h : t) :
  is_solved h = false ->
  yes h = (if low h <=? midpoint h then Return tt else Raise AssertionError,
           mk (low h) (midpoint h) (size h)).
Proof.
  unfold is_solved, midpoint. intro E. run. rewrite E.
  destruct (low h <=? (low h + high h) / 2); reflexivity.
Qed.

Lemma no_unsolved (h : t) :
  is_solved h = false ->
  no h = (if midpoint h + 1 <=? high h then Return tt else Raise AssertionError,
          mk (midpoint h + 1) (high h) (size h)).
Proof.
  unfold is_solved, midpoint. intro E. run. rewrite E.
  destruct ((low h + high h) / 2 + 1 <=? high h); reflexivity.
Qed.

Lemma choices_unsolved (h : t) :
  is_solved h = false ->
  choices h = (if low h <=? midpoint h
               then Return (mkRange (low h) (midpoint h + 1))
               else Raise AssertionError, h).
Proof.
  unfold is_solved, midpoint. intro E. run. rewrite E.
  destruct (low h <=? (low h + high h) / 2); reflexivity.
Qed.

(** The midpoint of a range of two values or more splits it properly. *)
Lemma midpoint_bounds (h : t) :
  low h < high h -> low h <= midpoint h /\ midpoint h < high h.
Proof.
  unfold midpoint. intro H.
  pose proof (Z_div_mod_eq_full (low h + high h) 2).
  pose proof (Z.mod_pos_bound (low h + high h) 2 eq_refl).
  lia.
Qed.

Lemma yes_ok (h : t) :
  low h < high h -> yes h = (Return tt, mk (low h) (midpoint h) (size h)).
Proof.
  intro H. rewrite yes_unsolved by (apply is_solved_false; lia).
  destruct (midpoint_bounds h H) as [Hl _].
  apply Z.leb_le in Hl. rewrite Hl. reflexivity.
Qed.

Lemma no_ok (h : t) :
  low h < high h -> no h = (Return tt, mk (midpoint h + 1) (high h) (size h)).
Proof.
  intro H. rewrite no_unsolved by (apply is_solved_false; lia).
  destruct (midpoint_bounds h H) as [_ Hu].
  assert (Hb : (midpoint h + 1 <=? high h) = true) by (apply Z.leb_le; lia).
  rewrite Hb. reflexivity.
Qed.

Lemma choices_ok (h : t) :
  low h < high h -> choices h = (Return (mkRange (low h) (midpoint h + 1)), h).
Proof.
  intro H. rewrite choices_unsolved by (apply is_solved_false; lia).
  destruct (midpoint_bounds h H) as [Hl _].
  apply Z.leb_le in Hl. rewrite Hl. reflexivity.
Qed.

(** A call of [yes] or [no] that returns was made on an unsolved state, passed
    its assertion, and left the state the source assigns. *)
Lemma yes_returns (h h' : t) :
  yes h = (Return tt, h') ->
  low h <> high h /\ h' = mk (low h) (midpoint h) (size h) /\ low h <= midpoint h.
Proof.
  intro E. destruct (is_solved h) eqn:S.
  - rewrite (yes_solved h S) in E. discriminate.
  - rewrite (yes_unsolved h S) in E.
    destruct (low h <=? midpoint h) eqn:L; [|discriminate].
    inversion E. split; [apply is_solved_false; exact S|].
    split; [reflexivity|]. apply Z.leb_le. exact L.
Qed.

Lemma no_returns (h h' : t) :
  no h = (Return tt, h') ->
  low h <> high h /\ h' = mk (midpoint h + 1) (high h) (size h) /\
  midpoint h + 1 <= high h.
Proof.
  intro E. destruct (is_solved h) eqn:S.
  - rewrite (no_solved h S) in E. discriminate.
  - rewrite (no_unsolved h S) in E.
    destruct (midpoint h + 1 <=? high h) eqn:L; [|discriminate].
    inversion E. split; [apply is_solved_false; exact S|].
    split; [reflexivity|]. apply Z.leb_le. exact L.
Qed.

End MethodEquations.

(** ** Construction and the invariant of the tracker *)

Section Invariant.
Import HiLo.

Lemma init_returns (minimum maximum : Z) (h : t) :
  __init__ minimum maximum = Return h ->
  minimum <= maximum /\ 0 <= minimum /\ maximum < 1000000000 /\
  h = mk minimum maximum (maximum - minimum + 1).
Proof.
  unfold __init__. intro E.
  destruct (minimum >? maximum) eqn:E1; [discriminate|].
  destruct (minimum <? 0) eqn:E2; [discriminate|].
  destruct (maximum >=? 1000000000) eqn:E3; [discriminate|].
  rewrite Z.gtb_ltb in E1. apply Z.ltb_ge in E1. apply Z.ltb_ge in E2.
  rewrite Z.geb_leb in E3. apply Z.leb_gt in E3.
  injection E as <-. repeat split; lia.
Qed.

Lemma init_valid (minimum maximum : Z) :
  minimum <= maximum -> 0 <= minimum -> maximum < 1000000000 ->
  __init__ minimum maximum = Return (mk minimum maximum (maximum - minimum + 1)).
Proof.
  intros H1 H2 H3. unfold __init__.
  assert (E1 : (minimum >? maximum) = false)
    by (rewrite Z.gtb_ltb; apply Z.ltb_ge; lia).
  assert (E2 : (minimum <? 0) = false) by (apply Z.ltb_ge; lia).
  assert (E3 : (maximum >=? 1000000000) = false)
    by (rewrite Z.geb_leb; apply Z.leb_gt; lia).
  rewrite E1, E2, E3. reflexivity.
Qed.

(** A successful answer keeps the range inside the one before, keeps [size],
    and leaves fewer candidates. *)
Lemma step_narrows (h h' : t) :
  step h h' -> low h <= high h ->
  low h <= low h' /\ low h' <= high h' /\ high h' <= high h /\
  size h' = size h /\ width h' < width h.
Proof.
  unfold width. intros S I. destruct S as [h h' E|h h' E].
  - apply yes_returns in E. destruct E as (N & -> & L). simpl.
    destruct (midpoint_bounds h) as [_ U]; lia.
  - apply no_returns in E. destruct E as (N & -> & L). simpl.
    destruct (midpoint_bounds h) as [U _]; lia.
Qed.

Lemma steps_narrow (h0 h : t) :
  steps h0 h -> low h0 <= high h0 ->
  low h0 <= low h /\ low h <= high h /\ high h <= high h0 /\
  size h = size h0 /\ width h <= width h0.
Proof.
  intros S I. induction S as [h|h h' h'' S IH T].
  - unfold width. lia.
  - specialize (IH I). destruct IH as (A & B & C & D & E).
    destruct (step_narrows h' h'' T B) as (A' & B' & C' & D' & E'). lia.
Qed.

Lemma steps_trans (a b c : t) : steps a b -> steps b c -> steps a c.
Proof.
  intros S T. induction T as [b|b b' b'' T IH U]; [exact S|].
  eapply steps_snoc; [apply IH; exact S|exact U].
Qed.

Lemma reachable_steps (h h' : t) : reachable h -> steps h h' -> reachable h'.
Proof.
  intros (mn & mx & h0 & E & S) T. exists mn, mx, h0.
  split; [exact E|]. eapply steps_trans; eassumption.
Qed.

Lemma reachable_inv (h : t) :
  reachable h ->
  0 <= low h /\ low h <= high h /\ high h < 1000000000 /\ width h <= size h.
Proof.
  intros (mn & mx & h0 & E & S).
  apply init_returns in E. destruct E as (A & B & C & ->).
  apply steps_narrow in S; simpl in *; [|lia].
  unfold width in *. simpl in *. lia.
Qed.

(** The state after ["no"] in the game from 1 to 10. *)
Lemma reachable_6_10 : reachable (mk 6 10 10).
Proof.
  exists 1, 10, (mk 1 10 10). split; [reflexivity|].
  eapply steps_snoc; [apply steps_refl|]. apply step_no. reflexivity.
Qed.

(** The solved state ["no", "yes", "no"] leads to in that game. *)
Lemma reachable_8_8 : reachable (mk 8 8 10).
Proof.
  apply (reachable_steps (mk 6 10 10)); [exact reachable_6_10|].
  apply (steps_snoc _ (mk 6 8 10)).
  - apply (steps_snoc _ (mk 6 10 10)); [apply steps_refl|].
    apply step_yes. reflexivity.
  - apply step_no. reflexivity.
Qed.

End Invariant.

(** ** The tracker: construction, invariant, questions and errors *)

Section Tracker.
Import HiLo.

(** C6: construction succeeds exactly for the inputs with
    [minimum <= maximum], [0 <= minimum] and [maximum < 1_000_000_000], and it
    fails with an invalid-range error for every other input; a tracker just
    constructed is solved if and only if [minimum = maximum]. *)
Theorem construction_valid_iff (minimum maximum : Z) :
  ((minimum <= maximum /\ 0 <= minimum /\ maximum < 1000000000) ->
     __init__ minimum maximum = Return (mk minimum maximum (maximum - minimum + 1)) /\
     (solved (mk minimum maximum (maximum - minimum + 1))
        = (Return true, mk minimum maximum (maximum - minimum + 1))
      <-> minimum = maximum)) /\
  (~ (minimum <= maximum /\ 0 <= minimum /\ maximum < 1000000000) ->
     exists e, __init__ minimum maximum = Raise e /\ InvalidRangeError e) /\
  ((exists h, __init__ minimum maximum = Return h) <->
     (minimum <= maximum /\ 0 <= minimum /\ maximum < 1000000000)).
Proof.
  split; [|split].
  - intros (A & B & C). split; [apply init_valid; assumption|].
    rewrite solved_eq. unfold is_solved. simpl. split.
    + intro E. injection E as E. apply Z.eqb_eq. exact E.
    + intros ->. rewrite Z.eqb_refl. reflexivity.
  - intro N. unfold __init__, InvalidRangeError.
    destruct (minimum >? maximum) eqn:E1; [eexists; split; [reflexivity|tauto]|].
    destruct (minimum <? 0) eqn:E2; [eexists; split; [reflexivity|tauto]|].
    destruct (maximum >=? 1000000000) eqn:E3; [eexists; split; [reflexivity|tauto]|].
    exfalso. apply N.
    rewrite Z.gtb_ltb in E1. apply Z.ltb_ge in E1. apply Z.ltb_ge in E2.
    rewrite Z.geb_leb in E3. apply Z.leb_gt in E3. lia.
  - split.
    + intros [h E]. apply init_returns in E. tauto.
    + intros (A & B & C). eexists. apply init_valid; assumption.
Qed.

Lemma construction_valid_iff_witness :
  __init__ 1 10 = Return (mk 1 10 10) /\ __init__ 5 5 = Return (mk 5 5 1).
Proof.
  split.
  - apply (proj1 (construction_valid_iff 1 10)). lia.
  - apply (proj1 (construction_valid_iff 5 5)). lia.
Defined.

(** C3: in every state reachable from a valid construction [low <= high]; a
    call of [yes] that returns has set [high] to the midpoint, a call of [no]
    that returns has set [low] to the midpoint plus one, and [low <= high]
    holds again after either; on an unsolved reachable state both calls
    return; and [solved] answers true exactly when [low = high]. *)
Theorem low_le_high_invariant (h : t) :
  reachable h ->
  low h <= high h /\
  (forall h', yes h = (Return tt, h') ->
     h' = mk (low h) (midpoint h) (size h) /\ low h' <= high h' /\ reachable h') /\
  (forall h', no h = (Return tt, h') ->
     h' = mk (midpoint h + 1) (high h) (size h) /\ low h' <= high h' /\ reachable h') /\
  (low h <> high h ->
     yes h = (Return tt, mk (low h) (midpoint h) (size h)) /\
     no h = (Return tt, mk (midpoint h + 1) (high h) (size h))) /\
  (solved h = (Return true, h) <-> low h = high h) /\
  (solved h = (Return false, h) <-> low h <> high h).
Proof.
  intro R. destruct (reachable_inv h R) as (_ & I & _ & _).
  split; [exact I|]. split; [|split; [|split; [|split]]].
  - intros h' E.
    assert (R' : reachable h')
      by (apply (reachable_steps h); [exact R|];
          eapply steps_snoc; [apply steps_refl|apply step_yes; exact E]).
    destruct (yes_returns h h' E) as (_ & -> & _).
    split; [reflexivity|]. split; [|exact R'].
    destruct (reachable_inv _ R') as (_ & I' & _). exact I'.
  - intros h' E.
    assert (R' : reachable h')
      by (apply (reachable_steps h); [exact R|];
          eapply steps_snoc; [apply steps_refl|apply step_no; exact E]).
    destruct (no_returns h h' E) as (_ & -> & _).
    split; [reflexivity|]. split; [|exact R'].
    destruct (reachable_inv _ R') as (_ & I' & _). exact I'.
  - intro N. split; [apply yes_ok|apply no_ok]; lia.
  - rewrite solved_eq. split.
    + intro E. injection E as E. apply is_solved_true. exact E.
    + intro E. apply is_solved_true in E. rewrite E. reflexivity.
  - rewrite solved_eq. split.
    + intro E. injection E as E. apply is_solved_false. exact E.
    + intro E. apply is_solved_false in E. rewrite E. reflexivity.
Qed.

Lemma low_le_high_invariant_witness :
  reachable (mk 6 10 10) /\ low (mk 6 10 10) <= high (mk 6 10 10).
Proof.
  split; [exact reachable_6_10|].
  exact (proj1 (low_le_high_invariant (mk 6 10 10) reachable_6_10)).
Defined.

(** C7: on every unsolved state of a tracker [choices] returns the range from
    [low] to the midpoint [floor((low + high) / 2)], both included; the range
    is not empty, and [low <= midpoint <= high]. *)
Theorem choices_range (h : t) :
  reachable h -> low h <> high h ->
  choices h = (Return (mkRange (low h) (midpoint h + 1)), h) /\
  midpoint h = (low h + high h) / 2 /\
  range_first (mkRange (low h) (midpoint h + 1)) = low h /\
  range_last (mkRange (low h) (midpoint h + 1)) = midpoint h /\
  1 <= range_len (mkRange (low h) (midpoint h + 1)) /\
  (forall x, range_mem x (mkRange (low h) (midpoint h + 1)) = true
             <-> low h <= x <= midpoint h) /\
  low h <= midpoint h <= high h.
Proof.
  intros R N. destruct (reachable_inv h R) as (_ & I & _ & _).
  assert (L : low h < high h) by lia.
  destruct (midpoint_bounds h L) as [A B].
  split; [apply choices_ok; exact L|].
  split; [reflexivity|].
  unfold range_first, range_last, range_len, range_mem. simpl.
  split; [reflexivity|]. split; [lia|]. split; [lia|]. split; [|lia].
  intro x. rewrite andb_true_iff, Z.leb_le, Z.ltb_lt. lia.
Qed.

Lemma choices_range_witness :
  choices (mk 6 10 10) = (Return (mkRange 6 9), mk 6 10 10).
Proof.
  refine (proj1 (choices_range (mk 6 10 10) reachable_6_10 _)).
  simpl. lia.
Defined.

(** C5: on a tracker, [choices], [yes] and [no] raise an exception if and only
    if the tracker is solved ([low = high]), and the exception is then the
    already-solved error; [secret] raises if and only if the tracker is not
    solved, and the exception is then the not-solved error; whenever one of
    them raises, [low], [high] and [size] are what they were. *)
Theorem errors_iff_illegal_state (h : t) :
  reachable h ->
  (forall e, fst (choices h) = Raise e <-> low h = high h /\ e = AlreadySolvedError) /\
  (forall e, fst (yes h) = Raise e <-> low h = high h /\ e = AlreadySolvedError) /\
  (forall e, fst (no h) = Raise e <-> low h = high h /\ e = AlreadySolvedError) /\
  (forall e, fst (secret h) = Raise e <-> low h <> high h /\ e = NotSolvedError) /\
  (forall e, fst (choices h) = Raise e -> snd (choices h) = h) /\
  (forall e, fst (yes h) = Raise e -> snd (yes h) = h) /\
  (forall e, fst (no h) = Raise e -> snd (no h) = h) /\
  (forall e, fst (secret h) = Raise e -> snd (secret h) = h).
Proof.
  intro R. destruct (reachable_inv h R) as (_ & I & _ & _).
  destruct (is_solved h) eqn:S.
  - pose proof (proj1 (is_solved_true h) S) as E.
    rewrite (choices_solved h S), (yes_solved h S), (no_solved h S),
      (secret_solved h S). simpl.
    repeat split; intros;
      repeat match goal with H : _ /\ _ |- _ => destruct H end;
      congruence.
  - pose proof (proj1 (is_solved_false h) S) as N.
    assert (L : low h < high h) by lia.
    rewrite (choices_ok h L), (yes_ok h L), (no_ok h L), (secret_unsolved h S).
    simpl.
    repeat split; intros;
      repeat match goal with H : _ /\ _ |- _ => destruct H end;
      congruence.
Qed.

Lemma errors_iff_illegal_state_witness :
  fst (yes (mk 8 8 10)) = Raise AlreadySolvedError /\
  fst (secret (mk 6 10 10)) = Raise NotSolvedError.
Proof.
  split.
  - apply (proj1 (proj2 (errors_iff_illegal_state (mk 8 8 10) reachable_8_8))).
    split; reflexivity.
  - apply (proj1 (proj2 (proj2 (proj2
             (errors_iff_illegal_state (mk 6 10 10) reachable_6_10))))).
    split; [simpl; lia|reflexivity].
Defined.

(** C10: in every state reached from a valid construction [size] is still the
    size of the initial range, and [high - low + 1 <= size]; a call of [yes]
    or [no] that returns leaves [high - low] strictly smaller; and on an
    unsolved state the proposed range, from [low] to the midpoint, is a proper
    part of the range from [low] to [high]. *)
Theorem width_bounded_and_decreasing (minimum maximum : Z) (h0 h : t) :
  __init__ minimum maximum = Return h0 -> steps h0 h ->
  size h = maximum - minimum + 1 /\
  size h = size h0 /\
  high h - low h + 1 <= size h /\
  (forall h', yes h = (Return tt, h') ->
     high h' - low h' < high h - low h /\ size h' = size h) /\
  (forall h', no h = (Return tt, h') ->
     high h' - low h' < high h - low h /\ size h' = size h) /\
  (low h <> high h -> low h <= midpoint h /\ midpoint h < high h).
Proof.
  intros E S.
  assert (R : reachable h) by (exists minimum, maximum, h0; split; assumption).
  destruct (reachable_inv h R) as (_ & I & _ & W). unfold width in W.
  destruct (init_returns _ _ _ E) as (A & _ & _ & E0).
  destruct (steps_narrow h0 h S) as (_ & _ & _ & Z0 & _);
    [rewrite E0; simpl; exact A|].
  split; [rewrite Z0, E0; reflexivity|].
  split; [exact Z0|]. split; [exact W|].
  split; [|split].
  - intros h' Y.
    destruct (step_narrows h h' (step_yes _ _ Y) I) as (_ & _ & _ & Z1 & W1).
    unfold width in W1. split; [lia|exact Z1].
  - intros h' Y.
    destruct (step_narrows h h' (step_no _ _ Y) I) as (_ & _ & _ & Z1 & W1).
    unfold width in W1. split; [lia|exact Z1].
  - intro N. apply midpoint_bounds. lia.
Qed.

Lemma width_bounded_and_decreasing_witness :
  size (mk 6 10 10) = 10 - 1 + 1 /\
  high (mk 6 10 10) - low (mk 6 10 10) + 1 <= size (mk 6 10 10).
Proof.
  assert (S : steps (mk 1 10 10) (mk 6 10 10))
    by (eapply steps_snoc; [apply steps_refl|apply step_no; reflexivity]).
  pose proof (width_bounded_and_decreasing 1 10 (mk 1 10 10) (mk 6 10 10)
                eq_refl S) as (A & _ & B & _).
  split; [exact A|exact B].
Defined.

(** The game from 1 to 10 with the answers ["no", "yes", "no"]: the questions
    are 1..5, 6..8 and 6..7, and the number found is 8. *)
Example game_from_1_to_10 :
  upto 10 = Return (mk 1 10 10) /\
  choices (mk 1 10 10) = (Return (mkRange 1 6), mk 1 10 10) /\
  no (mk 1 10 10) = (Return tt, mk 6 10 10) /\
  choices (mk 6 10 10) = (Return (mkRange 6 9), mk 6 10 10) /\
  yes (mk 6 10 10) = (Return tt, mk 6 8 10) /\
  choices (mk 6 8 10) = (Return (mkRange 6 8), mk 6 8 10) /\
  no (mk 6 8 10) = (Return tt, mk 8 8 10) /\
  solved (mk 8 8 10) = (Return true, mk 8 8 10) /\
  secret (mk 8 8 10) = (Return 8, mk 8 8 10).
Proof. repeat split. Qed.

(** A range of one value is solved from the start. *)
Example game_from_5_to_5 :
  __init__ 5 5 = Return (mk 5 5 1) /\
  solved (mk 5 5 1) = (Return true, mk 5 5 1) /\
  secret (mk 5 5 1) = (Return 5, mk 5 5 1) /\
  yes (mk 5 5 1) = (Raise AlreadySolvedError, mk 5 5 1).
Proof. repeat split. Qed.

(** Outside the states of a tracker the assertions do fire, and [yes] has by
    then overwritten [high]. *)
Example yes_on_empty_range :
  yes (mk 5 3 1) = (Raise AssertionError, mk 5 4 1).
Proof. reflexivity. Qed.

End Tracker.

(** ** Playing the game: termination and correctness *)

Section Play.
Import HiLo Driver.

Lemma record_nil (h : t) : record [] h = (Return tt, h).
Proof. reflexivity. Qed.

Lemma record_cons (a : bool) (rest : list bool) (h : t) :
  record (a :: rest) h =
  match (if a then yes else no) h with
  | (Return _, h') => record rest h'
  | (Raise e, h') => (Raise e, h')
  end.
Proof. reflexivity. Qed.

(** The first answer of a sequence that returns is a step of the tracker. *)
Lemma record_cons_returns (a : bool) (rest : list bool) (h h' : t) :
  record (a :: rest) h = (Return tt, h') ->
  exists h1, step h h1 /\ record rest h1 = (Return tt, h').
Proof.
  rewrite record_cons. intro E.
  destruct a.
  - destruct (yes h) as [[[]|e] h1] eqn:Y; [|discriminate].
    exists h1. split; [apply step_yes; exact Y|exact E].
  - destruct (no h) as [[[]|e] h1] eqn:Y; [|discriminate].
    exists h1. split; [apply step_no; exact Y|exact E].
Qed.

Lemma record_steps (answers : list bool) (h h' : t) :
  record answers h = (Return tt, h') -> steps h h'.
Proof.
  revert h. induction answers as [|a rest IH]; intros h E.
  - rewrite record_nil in E. injection E as <-. apply steps_refl.
  - apply record_cons_returns in E. destruct E as (h1 & S & E).
    apply (steps_trans h h1 h'); [|apply IH; exact E].
    eapply steps_snoc; [apply steps_refl|exact S].
Qed.

(** Each answer leaves at most half of the candidates, rounded up. *)
Lemma step_halves (h h' : t) :
  step h h' -> low h <= high h -> width h' <= (width h + 1) / 2.
Proof.
  unfold width. intros S I.
  pose proof (Z_div_mod_eq_full (low h + high h) 2) as D1.
  pose proof (Z.mod_pos_bound (low h + high h) 2 eq_refl) as M1.
  pose proof (Z_div_mod_eq_full (high h - low h + 1 + 1) 2) as D2.
  pose proof (Z.mod_pos_bound (high h - low h + 1 + 1) 2 eq_refl) as M2.
  destruct S as [h h' E|h h' E].
  - apply yes_returns in E. destruct E as (N & -> & L). unfold midpoint. simpl. lia.
  - apply no_returns in E. destruct E as (N & -> & L). unfold midpoint. simpl. lia.
Qed.

Lemma half_le_pow2 (w : Z) (k : nat) :
  w <= 2 ^ Z.of_nat (S k) -> (w + 1) / 2 <= 2 ^ Z.of_nat k.
Proof.
  rewrite Nat2Z.inj_succ, Z.pow_succ_r by lia. intro H.
  pose proof (Z_div_mod_eq_full (w + 1) 2).
  pose proof (Z.mod_pos_bound (w + 1) 2 eq_refl).
  lia.
Qed.

(** A range of at most [2 ^ k] candidates takes at most [k] answers. *)
Lemma record_length_le (k : nat) :
  forall (answers : list bool) (h h' : t),
    low h <= high h -> width h <= 2 ^ Z.of_nat k ->
    record answers h = (Return tt, h') -> (List.length answers <= k)%nat.
Proof.
  induction k as [|k IH]; intros answers h h' I W E.
  - destruct answers as [|a rest]; [apply Nat.le_refl|].
    apply record_cons_returns in E. destruct E as (h1 & S & _).
    apply step_narrows in S; [|exact I]. unfold width in *. simpl in W. lia.
  - destruct answers as [|a rest]; [apply Nat.le_0_l|].
    apply record_cons_returns in E. destruct E as (h1 & S & E).
    pose proof (step_halves h h1 S I) as Hh.
    destruct (step_narrows h h1 S I) as (_ & I1 & _).
    pose proof (half_le_pow2 (width h) k W) as Hp.
    simpl. apply le_n_S. apply (IH rest h1 h'); [exact I1|lia|exact E].
Qed.

(** Within [k] answers, whatever they are, such a range is solved. *)
Lemma record_solves (k : nat) :
  forall (answers : list bool) (h : t),
    low h <= high h -> width h <= 2 ^ Z.of_nat k -> (k <= List.length answers)%nat ->
    exists (j : nat) (h' : t),
      (j <= k)%nat /\ record (firstn j answers) h = (Return tt, h') /\
      low h' = high h'.
Proof.
  induction k as [|k IH]; intros answers h I W Len.
  - exists O, h. split; [apply Nat.le_refl|]. split; [reflexivity|].
    unfold width in W. simpl in W. lia.
  - destruct (Z.eq_dec (low h) (high h)) as [E|N].
    + exists O, h. split; [apply Nat.le_0_l|]. split; [reflexivity|exact E].
    + destruct answers as [|a rest]; [simpl in Len; lia|].
      assert (L : low h < high h) by lia.
      assert (St : exists h1, (if a then yes else no) h = (Return tt, h1) /\ step h h1).
      { destruct a.
        - eexists. split; [apply yes_ok; exact L|]. apply step_yes, yes_ok, L.
        - eexists. split; [apply no_ok; exact L|]. apply step_no, no_ok, L. }
      destruct St as (h1 & E1 & St).
      pose proof (step_halves h h1 St I) as Hh.
      destruct (step_narrows h h1 St I) as (_ & I1 & _).
      pose proof (half_le_pow2 (width h) k W) as Hp.
      destruct (IH rest h1 I1) as (j & h' & Hj & Hr & Hs);
        [lia|simpl in Len; lia|].
      exists (S j), h'. split; [lia|]. split; [|exact Hs].
      change (firstn (S j) (a :: rest)) with (a :: firstn j rest).
      rewrite record_cons, E1. exact Hr.
Qed.

Lemma le_pow2_log2_up (n : Z) : 1 <= n -> n <= 2 ^ Z.log2_up n.
Proof.
  intro H. destruct (Z.eq_dec n 1) as [->|N]; [simpl; lia|].
  apply Z.log2_up_spec. lia.
Qed.

(** C2: from a valid initial range of [N] values, whatever the answers, no
    more than [ceil(log2(N))] calls of [yes] and [no] return, and every
    sequence of that many answers or more solves the tracker within its first
    [ceil(log2(N))] calls; each call that returns leaves strictly fewer
    candidates, at most half of them rounded up. *)
Theorem solved_within_log2_calls (minimum maximum : Z) (h0 : t) :
  __init__ minimum maximum = Return h0 ->
  (forall answers h',
     record answers h0 = (Return tt, h') ->
     Z.of_nat (List.length answers) <= Z.log2_up (maximum - minimum + 1)) /\
  (forall answers,
     Z.log2_up (maximum - minimum + 1) <= Z.of_nat (List.length answers) ->
     exists (j : nat) (h' : t),
       Z.of_nat j <= Z.log2_up (maximum - minimum + 1) /\
       record (firstn j answers) h0 = (Return tt, h') /\
       solved h' = (Return true, h')) /\
  (forall h h',
     steps h0 h -> step h h' ->
     width h' < width h /\ width h' <= (width h + 1) / 2).
Proof.
  intro E. destruct (init_returns _ _ _ E) as (A & _ & _ & ->).
  set (N := maximum - minimum + 1).
  set (h0 := mk minimum maximum N).
  assert (I : low h0 <= high h0) by exact A.
  assert (P : 0 <= Z.log2_up N) by apply Z.log2_up_nonneg.
  assert (W : width h0 <= 2 ^ Z.of_nat (Z.to_nat (Z.log2_up N))).
  { rewrite Z2Nat.id by exact P. unfold width, h0. simpl.
    apply le_pow2_log2_up. unfold N. lia. }
  split; [|split].
  - intros answers h' R.
    pose proof (record_length_le _ answers h0 h' I W R). lia.
  - intros answers Len.
    destruct (record_solves (Z.to_nat (Z.log2_up N)) answers h0 I W)
      as (j & h' & Hj & Hr & Hs); [lia|].
    exists j, h'. split; [lia|]. split; [exact Hr|].
    rewrite solved_eq. apply is_solved_true in Hs. rewrite Hs. reflexivity.
  - intros h h' S T.
    destruct (steps_narrow h0 h S I) as (_ & Ih & _).
    destruct (step_narrows h h' T Ih) as (_ & _ & _ & _ & Wd).
    split; [exact Wd|]. apply step_halves; assumption.
Qed.

Lemma solved_within_log2_calls_witness :
  Z.of_nat (List.length [false; true; false]) <= Z.log2_up (10 - 1 + 1).
Proof.
  apply (proj1 (solved_within_log2_calls 1 10 (mk 1 10 10) eq_refl)
           [false; true; false] (mk 8 8 10)).
  reflexivity.
Defined.

(** The bound is reached: four answers ["yes"] are needed from 1 to 10. *)
Example four_answers_from_1_to_10 :
  record [true; true; true; true] (mk 1 10 10) = (Return tt, mk 1 1 10) /\
  Z.log2_up 10 = 4.
Proof. split; reflexivity. Qed.

Lemma drive_solved (answer : range -> bool) (fuel : nat) (h : t) :
  low h = high h -> drive answer fuel h = (Return (Some (low h)), h).
Proof.
  intro E. apply is_solved_true in E.
  destruct fuel; simpl; unfold bind at 1; rewrite solved_eq, E;
    unfold bind; rewrite (secret_solved h E); reflexivity.
Qed.

Lemma drive_unsolved (answer : range -> bool) (fuel : nat) (h : t) :
  low h < high h ->
  drive answer (S fuel) h =
  drive answer fuel
    (if answer (mkRange (low h) (midpoint h + 1))
     then mk (low h) (midpoint h) (size h)
     else mk (midpoint h + 1) (high h) (size h)).
Proof.
  intro L.
  assert (E : is_solved h = false) by (apply is_solved_false; lia).
  simpl. unfold bind at 1. rewrite solved_eq, E.
  unfold bind at 1. rewrite (choices_ok h L).
  unfold bind at 1.
  destruct (answer (mkRange (low h) (midpoint h + 1))).
  - rewrite (yes_ok h L). reflexivity.
  - rewrite (no_ok h L). reflexivity.
Qed.

(** The truthful player keeps the target inside the range, so the loop ends on
    the target. *)
Lemma drive_truthful (target : Z) (fuel : nat) :
  forall h : t,
    low h <= target <= high h -> width h <= 2 ^ Z.of_nat fuel ->
    exists h',
      drive (truthful target) fuel h = (Return (Some target), h') /\
      low h' = target /\ high h' = target /\ size h' = size h.
Proof.
  induction fuel as [|fuel IH]; intros h T W.
  - assert (E : low h = high h) by (unfold width in W; simpl in W; lia).
    exists h. rewrite (drive_solved _ _ h E).
    replace target with (low h) by lia.
    repeat split; try reflexivity; lia.
  - destruct (Z.eq_dec (low h) (high h)) as [E|N].
    + exists h. rewrite (drive_solved _ _ h E).
      replace target with (low h) by lia.
      repeat split; try reflexivity; lia.
    + assert (L : low h < high h) by lia.
      assert (I : low h <= high h) by lia.
      rewrite (drive_unsolved _ fuel h L).
      destruct (midpoint_bounds h L) as [Ml Mu].
      pose proof (half_le_pow2 (width h) fuel W) as Hp.
      destruct (truthful target (mkRange (low h) (midpoint h + 1))) eqn:Q;
        unfold truthful, range_mem in Q; simpl in Q.
      * apply andb_true_iff in Q. destruct Q as [_ Q]. apply Z.ltb_lt in Q.
        pose proof (step_halves h _ (step_yes _ _ (yes_ok h L)) I) as Hh.
        destruct (IH (mk (low h) (midpoint h) (size h))) as (h' & D & A & B & C);
          [simpl; lia|lia|].
        exists h'. simpl in C. repeat split; assumption.
      * apply andb_false_iff in Q.
        assert (Q' : midpoint h + 1 <= target)
          by (destruct Q as [Q|Q]; [apply Z.leb_gt in Q; lia|apply Z.ltb_ge in Q; lia]).
        pose proof (step_halves h _ (step_no _ _ (no_ok h L)) I) as Hh.
        destruct (IH (mk (midpoint h + 1) (high h) (size h))) as (h' & D & A & B & C);
          [simpl; lia|lia|].
        exists h'. simpl in C. repeat split; assumption.
Qed.

(** C1: for every valid initial range and every target [t] in it, answering
    each question truthfully (["yes"] when [t] is in the range [choices]
    returns, that is when [t <= midpoint], and ["no"] otherwise) until the
    tracker is solved makes [secret] return [t]; the loop ends within
    [ceil(log2(N))] answers for a range of [N] values. *)
Theorem truthful_answers_find_target (minimum maximum target : Z) (h0 : t) :
  __init__ minimum maximum = Return h0 ->
  minimum <= target <= maximum ->
  (forall fuel : nat,
     Z.log2_up (maximum - minimum + 1) <= Z.of_nat fuel ->
     exists h',
       drive (truthful target) fuel h0 = (Return (Some target), h') /\
       solved h' = (Return true, h') /\
       secret h' = (Return target, h')) /\
  (forall h,
     low h <= target ->
     truthful target (mkRange (low h) (midpoint h + 1)) = (target <=? midpoint h)).
Proof.
  intros E T. destruct (init_returns _ _ _ E) as (A & _ & _ & ->).
  split.
  - intros fuel F.
    destruct (drive_truthful target fuel (mk minimum maximum (maximum - minimum + 1)))
      as (h' & D & Lo & Hi & _).
    + simpl. exact T.
    + unfold width. simpl.
      apply Z.le_trans with (2 ^ Z.log2_up (maximum - minimum + 1)).
      * apply le_pow2_log2_up. lia.
      * apply Z.pow_le_mono_r; [lia|exact F].
    + exists h'. split; [exact D|].
      assert (S : is_solved h' = true) by (apply is_solved_true; lia).
      split.
      * rewrite solved_eq, S. reflexivity.
      * rewrite (secret_solved h' S), Lo. reflexivity.
  - intros h Lo. unfold truthful, range_mem. simpl.
    assert (C : (low h <=? target) = true) by (apply Z.leb_le; exact Lo).
    rewrite C. simpl.
    destruct (target <=? midpoint h) eqn:D.
    + apply Z.leb_le in D. apply Z.ltb_lt. lia.
    + apply Z.leb_gt in D. apply Z.ltb_ge. lia.
Qed.

Lemma truthful_answers_find_target_witness :
  exists h', drive (truthful 8) 4 (mk 1 10 10) = (Return (Some 8), h').
Proof.
  destruct (proj1 (truthful_answers_find_target 1 10 8 (mk 1 10 10) eq_refl
                     ltac:(lia)) 4%nat ltac:(vm_compute; discriminate))
    as (h' & D & _).
  exists h'. exact D.
Defined.

End Play.

(** ** Progress *)

Section Progress.
Import HiLo.
Context {F : FloatArith}.

Lemma progress_solved (h : t) :
  low h = high h -> progress h = (Return f1, h).
Proof.
  intro E. apply is_solved_true in E.
  unfold progress. unfold bind at 1. rewrite solved_eq, E. reflexivity.
Qed.

(** On an unsolved state both logarithms and the division are evaluated, in
    this order, and the first that fails ends the call. *)
Lemma progress_unsolved (h : t) :
  low h <> high h ->
  progress h =
  (match math_log (high h - low h + 1) with
   | Raise e => Raise e
   | Return num =>
       match math_log (size h) with
       | Raise e => Raise e
       | Return den =>
           match float_div num den with
           | Raise e => Raise e
           | Return q => Return (fsub f1 q)
           end
       end
   end, h).
Proof.
  intro N. apply is_solved_false in N.
  unfold progress. unfold bind at 1. rewrite solved_eq, N.
  unfold bind, get, lift, ret. simpl.
  destruct (math_log (high h - low h + 1)); [|reflexivity].
  destruct (math_log (size h)); [|reflexivity].
  destruct (float_div a a0); reflexivity.
Qed.

Lemma math_log_pos (n : Z) : 1 <= n -> math_log n = Return (flog n).
Proof.
  intro H. unfold math_log.
  assert (E : (n <=? 0) = false) by (apply Z.leb_gt; lia).
  rewrite E. reflexivity.
Qed.

Lemma float_div_log (x : float) (n : Z) :
  2 <= n -> float_div x (flog n) = Return (fdiv x (flog n)).
Proof.
  intro H. unfold float_div. rewrite (flog_nonzero n H). reflexivity.
Qed.

Lemma progress_ok (h : t) :
  low h < high h -> 2 <= size h ->
  progress h = (Return (progress_value (size h) (width h)), h).
Proof.
  intros L S. rewrite progress_unsolved by lia.
  rewrite math_log_pos by lia. rewrite math_log_pos by lia.
  rewrite float_div_log by exact S. reflexivity.
Qed.

Lemma progress_value_top (n : Z) : 2 <= n -> progress_value n n = f0.
Proof.
  intro H. unfold progress_value. rewrite (fdiv_diag n H). apply fsub_diag.
Qed.

Lemma progress_value_one (n : Z) : 2 <= n -> progress_value n 1 = f1.
Proof.
  intro H. unfold progress_value.
  rewrite flog_one, (fdiv_zero n H). apply fsub_zero.
Qed.

(** Fewer candidates, more progress. *)
Lemma progress_value_anti (n w w' : Z) :
  2 <= n -> 1 <= w' <= w -> fle (progress_value n w) (progress_value n w').
Proof.
  intros H W. unfold progress_value.
  apply fsub_anti. apply fdiv_mono; [exact H|]. apply flog_mono. exact W.
Qed.

Lemma fle_0_1 : fle f0 f1.
Proof.
  rewrite <- (progress_value_top 2), <- (progress_value_one 2) by lia.
  apply progress_value_anti; lia.
Qed.

Lemma fle_1_1 : fle f1 f1.
Proof.
  rewrite <- (progress_value_one 2) by lia.
  apply progress_value_anti; lia.
Qed.

(** What [progress] returns on a state of a tracker. *)
Lemma progress_reachable (h : t) :
  reachable h ->
  progress h =
  (Return (if low h =? high h then f1 else progress_value (size h) (width h)), h).
Proof.
  intro R. destruct (reachable_inv h R) as (_ & I & _ & W). unfold width in W.
  destruct (low h =? high h) eqn:E.
  - apply progress_solved. apply Z.eqb_eq. exact E.
  - apply Z.eqb_neq in E. apply progress_ok; lia.
Qed.

(** C9: [progress] evaluates [log(high - low + 1) / log(size)] on unsolved
    states only; on an unsolved state of a tracker [low < high] and
    [size >= 2], so both logarithms are taken of integers that are at least 1,
    [log(size)] is not zero, and neither a domain error nor a division by zero
    is raised: on every state of a tracker [progress] returns a value. *)
Theorem progress_never_raises (h : t) :
  reachable h ->
  (low h = high h -> progress h = (Return f1, h)) /\
  (low h <> high h ->
     low h < high h /\ 2 <= size h /\ 1 <= high h - low h + 1 /\
     math_log (high h - low h + 1) = Return (flog (high h - low h + 1)) /\
     math_log (size h) = Return (flog (size h)) /\
     fis_zero (flog (size h)) = false /\
     float_div (flog (high h - low h + 1)) (flog (size h))
       = Return (fdiv (flog (high h - low h + 1)) (flog (size h))) /\
     progress h = (Return (progress_value (size h) (high h - low h + 1)), h)) /\
  (exists v, progress h = (Return v, h)) /\
  (forall e, fst (progress h) <> Raise e).
Proof.
  intro R. destruct (reachable_inv h R) as (_ & I & _ & W). unfold width in W.
  split; [apply progress_solved|]. split; [|split].
  - intro N. assert (L : low h < high h) by lia.
    assert (S : 2 <= size h) by lia.
    split; [exact L|]. split; [exact S|]. split; [lia|].
    split; [apply math_log_pos; lia|]. split; [apply math_log_pos; lia|].
    split; [apply flog_nonzero; exact S|].
    split; [apply float_div_log; exact S|].
    apply (progress_ok h L S).
  - eexists. apply progress_reachable. exact R.
  - intros e. rewrite (progress_reachable h R). simpl. discriminate.
Qed.

(** C4: on a tracker [progress] returns exactly [1.0] when it is solved and
    exactly [0.0] in the initial state when that state is not solved; its value
    always lies between [0.0] and [1.0]; and it does not decrease along any
    sequence of calls of [yes] and [no]. *)
Theorem progress_contract (minimum maximum : Z) (h0 h : t) :
  __init__ minimum maximum = Return h0 -> steps h0 h ->
  exists p0 p : float,
    progress h0 = (Return p0, h0) /\
    progress h = (Return p, h) /\
    (minimum <> maximum -> p0 = f0) /\
    (low h = high h -> p = f1) /\
    fle f0 p /\ fle p f1 /\
    (forall h', steps h h' ->
       exists p', progress h' = (Return p', h') /\ fle p p').
Proof.
  intros E S.
  assert (R0 : reachable h0)
    by (exists minimum, maximum, h0; split; [exact E|apply steps_refl]).
  assert (R : reachable h) by (apply (reachable_steps h0); assumption).
  destruct (init_returns _ _ _ E) as (A & _ & _ & E0).
  assert (I0 : low h0 <= high h0) by (rewrite E0; exact A).
  destruct (steps_narrow h0 h S I0) as (_ & I & _ & Z0 & _).
  destruct (reachable_inv h R) as (_ & _ & _ & W).
  eexists. eexists.
  split; [apply (progress_reachable h0 R0)|].
  split; [apply (progress_reachable h R)|].
  split; [|split; [|split; [|split]]].
  - intro N. rewrite E0. simpl.
    assert (X : (minimum =? maximum) = false) by (apply Z.eqb_neq; exact N).
    rewrite X. unfold width. simpl. apply progress_value_top. lia.
  - intro X. apply Z.eqb_eq in X. rewrite X. reflexivity.
  - destruct (low h =? high h) eqn:X; [apply fle_0_1|].
    apply Z.eqb_neq in X. unfold width in W.
    rewrite <- (progress_value_top (size h)) at 1 by lia.
    apply progress_value_anti; unfold width; lia.
  - destruct (low h =? high h) eqn:X; [apply fle_1_1|].
    apply Z.eqb_neq in X. unfold width in W.
    rewrite <- (progress_value_one (size h)) by lia.
    apply progress_value_anti; unfold width; lia.
  - intros h' S'.
    assert (R' : reachable h') by (apply (reachable_steps h); assumption).
    destruct (steps_narrow h h' S' I) as (_ & I' & _ & Z' & W').
    destruct (reachable_inv h' R') as (_ & _ & _ & W'').
    eexists. split; [apply (progress_reachable h' R')|].
    unfold width in *.
    destruct (low h' =? high h') eqn:X'.
    + destruct (low h =? high h) eqn:X; [apply fle_1_1|].
      apply Z.eqb_neq in X.
      rewrite <- (progress_value_one (size h)) by lia.
      apply progress_value_anti; lia.
    + apply Z.eqb_neq in X'.
      destruct (low h =? high h) eqn:X; [apply Z.eqb_eq in X; lia|].
      rewrite Z'. apply progress_value_anti; lia.
Qed.

End Progress.

(** Both hold of the game from 1 to 10 in real arithmetic. *)
Lemma progress_never_raises_witness :
  exists v : R, @HiLo.progress RealArith (HiLo.mk 6 10 10) = (Return v, HiLo.mk 6 10 10).
Proof.
  exact (proj1 (proj2 (proj2
           (@progress_never_raises RealArith (HiLo.mk 6 10 10) reachable_6_10)))).
Defined.

Lemma progress_contract_witness :
  exists p0 p : R,
    @HiLo.progress RealArith (HiLo.mk 1 10 10) = (Return p0, HiLo.mk 1 10 10) /\
    @HiLo.progress RealArith (HiLo.mk 6 10 10) = (Return p, HiLo.mk 6 10 10) /\
    p0 = 0%R /\ (0 <= p <= 1)%R.
Proof.
  assert (S : steps (HiLo.mk 1 10 10) (HiLo.mk 6 10 10))
    by (eapply steps_snoc; [apply steps_refl|apply step_no; reflexivity]).
  destruct (@progress_contract RealArith 1 10 (HiLo.mk 1 10 10) (HiLo.mk 6 10 10)
              eq_refl S) as (p0 & p & A & B & C & _ & D & E & _).
  exists p0, p. split; [exact A|]. split; [exact B|].
  split; [apply C; lia|]. split; [exact D|exact E].
Defined.

(** ** Reading the answers *)

Section Answers.

Lemma lstrip_spec (s : string) :
  exists pre, s = pre ++ lstrip s /\ all_space pre = true /\
              starts_with_space (lstrip s) = false.
Proof.
  induction s as [|c s IH].
  - exists EmptyString. repeat split.
  - simpl. destruct (isspace c) eqn:E.
    + destruct IH as (pre & A & B & C).
      exists (String c pre). simpl. rewrite E, B, <- A. repeat split. exact C.
    + exists EmptyString. simpl. repeat split. exact E.
Qed.

Lemma rstrip_spec (s : string) :
  exists post, s = rstrip s ++ post /\ all_space post = true /\
               ends_with_space (rstrip s) = false.
Proof.
  induction s as [|c s IH].
  - exists EmptyString. repeat split.
  - destruct IH as (post & A & B & C). simpl.
    destruct (rstrip s) as [|d r] eqn:R.
    + simpl in A. subst post. destruct (isspace c) eqn:E.
      * exists (String c s). simpl. rewrite E, B. repeat split.
      * exists s. simpl. repeat split; assumption.
    + exists post. split; [simpl; f_equal; exact A|]. split; [exact B|exact C].
Qed.

Lemma rstrip_keeps_head (s : string) :
  starts_with_space s = false -> starts_with_space (rstrip s) = false.
Proof.
  destruct s as [|c s]; [reflexivity|]. simpl. intro E.
  destruct (rstrip s); [rewrite E|]; simpl; exact E.
Qed.

(** [strip] removes whitespace, and nothing else, from both ends. *)
Lemma strip_spec (line : string) :
  exists pre post,
    line = pre ++ strip line ++ post /\
    all_space pre = true /\ all_space post = true /\
    starts_with_space (strip line) = false /\
    ends_with_space (strip line) = false.
Proof.
  unfold strip.
  destruct (lstrip_spec line) as (pre & A & B & C).
  destruct (rstrip_spec (lstrip line)) as (post & A' & B' & C').
  exists pre, post. rewrite <- A', <- A.
  repeat split; try assumption. apply rstrip_keeps_head. exact C.
Qed.

Lemma str_in_In (s : string) (l : list string) : str_in s l = true <-> In s l.
Proof.
  unfold str_in. rewrite existsb_exists. split.
  - intros (x & H & E). apply String.eqb_eq in E. subst x. exact H.
  - intro H. exists s. split; [exact H|apply String.eqb_refl].
Qed.

Lemma str_in_not_In (s : string) (l : list string) : str_in s l = false <-> ~ In s l.
Proof.
  rewrite <- str_in_In. destruct (str_in s l); split; congruence.
Qed.

Lemma yes_no_disjoint (s : string) : In s _yes -> In s _no -> False.
Proof.
  unfold _yes, _no. simpl. intros Y N.
  repeat match goal with H : _ \/ _ |- _ => destruct H end;
    try contradiction; subst; discriminate.
Qed.

(** What the source accepts is accepted by the case-insensitive reading too,
    with the same answer. *)
Lemma lower_yes (s : string) : In s _yes -> str_in (lower s) ["y"; "yes"] = true.
Proof.
  unfold _yes. simpl. intro H.
  repeat match goal with H : _ \/ _ |- _ => destruct H end;
    try contradiction; subst; reflexivity.
Qed.

Lemma lower_no (s : string) :
  In s _no ->
  str_in (lower s) ["y"; "yes"] = false /\ str_in (lower s) ["n"; "no"] = true.
Proof.
  unfold _no. simpl. intro H.
  repeat match goal with H : _ \/ _ |- _ => destruct H end;
    try contradiction; subst; split; reflexivity.
Qed.

(** The three outcomes of [_yes_no], by the spelling of the trimmed line. *)
Lemma yes_no_cases (line : string) :
  (_yes_no line = Some true <-> In (strip line) ["y"; "Y"; "yes"; "Yes"; "YES"]) /\
  (_yes_no line = Some false <-> In (strip line) ["n"; "N"; "no"; "No"; "NO"]) /\
  (_yes_no line = None <->
     ~ In (strip line) ["y"; "Y"; "yes"; "Yes"; "YES"; "n"; "N"; "no"; "No"; "NO"]) /\
  (forall b, _yes_no line = Some b -> yes_no_case_insensitive line = Some b).
Proof.
  unfold _yes_no, yes_no_case_insensitive.
  change ["y"; "Y"; "yes"; "Yes"; "YES"; "n"; "N"; "no"; "No"; "NO"]
    with (_yes ++ _no)%list.
  change ["y"; "Y"; "yes"; "Yes"; "YES"] with _yes.
  change ["n"; "N"; "no"; "No"; "NO"] with _no.
  generalize (strip line) as ans. intro ans. cbv zeta.
  destruct (str_in ans _yes) eqn:Y.
  - pose proof (proj1 (str_in_In _ _) Y) as Hy.
    split; [tauto|]. split; [|split].
    + split; [discriminate|]. intro Hn. destruct (yes_no_disjoint ans Hy Hn).
    + split; [discriminate|]. intro H. exfalso. apply H.
      apply in_or_app. left. exact Hy.
    + intros b E. injection E as <-. rewrite (lower_yes ans Hy). reflexivity.
  - pose proof (proj1 (str_in_not_In _ _) Y) as Hy.
    destruct (str_in ans _no) eqn:N.
    + pose proof (proj1 (str_in_In _ _) N) as Hn.
      split; [split; [discriminate|contradiction]|].
      split; [tauto|]. split.
      * split; [discriminate|]. intro H. exfalso. apply H.
        apply in_or_app. right. exact Hn.
      * intros b E. injection E as <-.
        destruct (lower_no ans Hn) as [A B]. rewrite A, B. reflexivity.
    + pose proof (proj1 (str_in_not_In _ _) N) as Hn.
      split; [split; [discriminate|contradiction]|].
      split; [split; [discriminate|contradiction]|].
      split; [|discriminate].
      split; [|reflexivity]. intros _ H. apply in_app_or in H. tauto.
Qed.

(** C8, as the source has it: the answer is "yes" exactly when the trimmed
    line is one of "y", "Y", "yes", "Yes" and "YES", "no" exactly when it is
    one of "n", "N", "no", "No" and "NO", and unrecognised for every other
    line, which costs one more prompt; every line the source recognises is
    recognised, with the same answer, when case is disregarded. *)
Theorem yes_no_listed_spellings (line : string) :
  (_yes_no line = Some true <-> In (strip line) ["y"; "Y"; "yes"; "Yes"; "YES"]) /\
  (_yes_no line = Some false <-> In (strip line) ["n"; "N"; "no"; "No"; "NO"]) /\
  (_yes_no line = None <->
     ~ In (strip line) ["y"; "Y"; "yes"; "Yes"; "YES"; "n"; "N"; "no"; "No"; "NO"]) /\
  (forall b, _yes_no line = Some b -> yes_no_case_insensitive line = Some b) /\
  (forall rest,
     ask (line :: rest) =
     match _yes_no line with
     | Some b => Some (b, O, rest)
     | None =>
         match ask rest with
         | Some (b, n, rest') => Some (b, S n, rest')
         | None => None
         end
     end).
Proof.
  destruct (yes_no_cases line) as (A & B & C & D).
  split; [exact A|]. split; [exact B|]. split; [exact C|]. split; [exact D|].
  intro rest. reflexivity.
Qed.

(** C8, as the specification words it, fails: spellings in mixed case are
    matches of "yes" and "no" when case is disregarded, and the source does
    not recognise them. *)
Lemma mixed_case_not_recognised :
  _yes_no "yEs" = None /\ yes_no_case_insensitive "yEs" = Some true /\
  _yes_no "YeS" = None /\ yes_no_case_insensitive "YeS" = Some true /\
  _yes_no "nO" = None /\ yes_no_case_insensitive "nO" = Some false.
Proof. repeat split; reflexivity. Qed.

Example yes_no_trims : _yes_no "  Yes " = Some true /\ _yes_no "NO" = Some false.
Proof. split; reflexivity. Qed.

Example yes_no_inner_space : _yes_no "y es" = None /\ _yes_no "" = None.
Proof. split; reflexivity. Qed.

(** A line that is not recognised costs one more prompt. *)
Example ask_prompts_again :
  ask ["maybe"; "yEs"; " no"; "y"] = Some (false, 2%nat, ["y"]).
Proof. reflexivity. Qed.

End Answers.

(** ** More on the tracker *)

Section TrackerMore.
Import HiLo Driver.

Lemma init_empty (minimum maximum : Z) :
  maximum < minimum ->
  __init__ minimum maximum = Raise (ValueError "range cannot be empty").
Proof.
  intro H. unfold __init__.
  assert (E : (minimum >? maximum) = true)
    by (rewrite Z.gtb_ltb; apply Z.ltb_lt; exact H).
  rewrite E. reflexivity.
Qed.

Lemma init_negative (minimum maximum : Z) :
  minimum <= maximum -> minimum < 0 ->
  __init__ minimum maximum = Raise (ValueError "min cannot be negative").
Proof.
  intros H1 H2. unfold __init__.
  assert (E1 : (minimum >? maximum) = false)
    by (rewrite Z.gtb_ltb; apply Z.ltb_ge; exact H1).
  assert (E2 : (minimum <? 0) = true) by (apply Z.ltb_lt; exact H2).
  rewrite E1, E2. reflexivity.
Qed.

Lemma init_too_large (minimum maximum : Z) :
  minimum <= maximum -> 0 <= minimum -> 1000000000 <= maximum ->
  __init__ minimum maximum = Raise (ValueError "max must be less than 1000000000").
Proof.
  intros H1 H2 H3. unfold __init__.
  assert (E1 : (minimum >? maximum) = false)
    by (rewrite Z.gtb_ltb; apply Z.ltb_ge; exact H1).
  assert (E2 : (minimum <? 0) = false) by (apply Z.ltb_ge; exact H2).
  assert (E3 : (maximum >=? 1000000000) = true)
    by (rewrite Z.geb_leb; apply Z.leb_le; exact H3).
  rewrite E1, E2, E3. reflexivity.
Qed.

(** X1: [upto(maximum)] gives the tracker of the range from 1 to [maximum]
    exactly when [1 <= maximum < 1_000_000_000]; a maximum below 1 is reported
    as an empty range and one that is too large as such, so [upto] never
    reports a negative minimum.  In [__init__] the empty range is reported
    first, then the negative minimum, then the maximum. *)
Theorem upto_outcome (maximum : Z) :
  (1 <= maximum < 1000000000 <-> upto maximum = Return (mk 1 maximum maximum)) /\
  (maximum < 1 <-> upto maximum = Raise (ValueError "range cannot be empty")) /\
  (1000000000 <= maximum <->
     upto maximum = Raise (ValueError "max must be less than 1000000000")) /\
  upto maximum <> Raise (ValueError "min cannot be negative") /\
  (forall minimum,
     (maximum < minimum ->
        __init__ minimum maximum = Raise (ValueError "range cannot be empty")) /\
     (minimum <= maximum -> minimum < 0 ->
        __init__ minimum maximum = Raise (ValueError "min cannot be negative")) /\
     (minimum <= maximum -> 0 <= minimum -> 1000000000 <= maximum ->
        __init__ minimum maximum
          = Raise (ValueError "max must be less than 1000000000"))).
Proof.
  assert (Cases : maximum < 1 \/ 1 <= maximum < 1000000000 \/ 1000000000 <= maximum)
    by lia.
  unfold upto.
  split; [|split; [|split; [|split]]].
  - split.
    + intro H. rewrite init_valid by lia. f_equal. f_equal. lia.
    + intro E. apply init_returns in E. lia.
  - split.
    + intro H. apply init_empty. lia.
    + intro E. destruct Cases as [H|[H|H]]; [exact H| |].
      * rewrite init_valid in E by lia. discriminate.
      * rewrite init_too_large in E by lia. discriminate.
  - split.
    + intro H. apply init_too_large; lia.
    + intro E. destruct Cases as [H|[H|H]]; [| |exact H].
      * rewrite init_empty in E by lia. discriminate.
      * rewrite init_valid in E by lia. discriminate.
  - destruct Cases as [H|[H|H]].
    + rewrite init_empty by lia. discriminate.
    + rewrite init_valid by lia. discriminate.
    + rewrite init_too_large by lia. discriminate.
  - intro minimum. split; [apply init_empty|].
    split; [apply init_negative|apply init_too_large].
Qed.

Lemma twice_is_once {A : Type} (m : M A) (h : t) :
  snd (m h) = h -> (m ;;; m) h = m h.
Proof.
  unfold bind. destruct (m h) as [[a|e] h1] eqn:E; simpl; intros ->.
  - exact E.
  - reflexivity.
Qed.

Lemma choices_pure (h : t) : snd (choices h) = h.
Proof.
  destruct (is_solved h) eqn:S.
  - rewrite (choices_solved h S). reflexivity.
  - rewrite (choices_unsolved h S). reflexivity.
Qed.

Lemma secret_pure (h : t) : snd (secret h) = h.
Proof.
  destruct (is_solved h) eqn:S.
  - rewrite (secret_solved h S). reflexivity.
  - rewrite (secret_unsolved h S). reflexivity.
Qed.

Lemma progress_pure {F : FloatArith} (h : t) : snd (progress h) = h.
Proof.
  destruct (Z.eq_dec (low h) (high h)) as [E|N].
  - rewrite (progress_solved h E). reflexivity.
  - rewrite (progress_unsolved h N). reflexivity.
Qed.

Lemma yes_frame (h : t) : low (snd (yes h)) = low h /\ size (snd (yes h)) = size h.
Proof.
  destruct (is_solved h) eqn:S.
  - rewrite (yes_solved h S). split; reflexivity.
  - rewrite (yes_unsolved h S). split; reflexivity.
Qed.

Lemma no_frame (h : t) : high (snd (no h)) = high h /\ size (snd (no h)) = size h.
Proof.
  destruct (is_solved h) eqn:S.
  - rewrite (no_solved h S). split; reflexivity.
  - rewrite (no_unsolved h S). split; reflexivity.
Qed.

(** X2: only [yes] and [no] have side effects.  On any state, of a tracker or
    not, and whether they return or raise, [_mid_point], [solved], [choices],
    [progress] and [secret] leave the three attributes as they are, so calling
    one of them twice gives what calling it once gives; [yes] writes [high]
    only and [no] writes [low] only, and neither writes [size]. *)
Theorem only_yes_and_no_have_side_effects {F : FloatArith} (h : t) :
  (snd (_mid_point h) = h /\ snd (solved h) = h /\ snd (choices h) = h /\
   snd (progress h) = h /\ snd (secret h) = h) /\
  ((solved ;;; solved) h = solved h /\ (choices ;;; choices) h = choices h /\
   (progress ;;; progress) h = progress h /\ (secret ;;; secret) h = secret h) /\
  (low (snd (yes h)) = low h /\ size (snd (yes h)) = size h) /\
  (high (snd (no h)) = high h /\ size (snd (no h)) = size h).
Proof.
  split; [|split; [|split]].
  - split; [reflexivity|]. split; [reflexivity|].
    split; [apply choices_pure|]. split; [apply progress_pure|apply secret_pure].
  - split; [reflexivity|].
    split; [apply twice_is_once, choices_pure|].
    split; [apply twice_is_once, progress_pure|apply twice_is_once, secret_pure].
  - apply yes_frame.
  - apply no_frame.
Qed.

(** One answer keeps exactly the numbers it is a truthful answer for. *)
Lemma step_keeps_consistent (a : bool) (h h1 : t) (x : Z) :
  (if a then yes else no) h = (Return tt, h1) ->
  low h <= x <= high h ->
  (low h1 <= x <= high h1 <->
   match choices h with
   | (Return c, _) => a = range_mem x c
   | (Raise _, _) => False
   end).
Proof.
  intros E X.
  assert (L : low h < high h).
  { destruct a; [apply yes_returns in E|apply no_returns in E]; lia. }
  rewrite (choices_ok h L). unfold range_mem. simpl.
  assert (Lo : (low h <=? x) = true) by (apply Z.leb_le; lia).
  rewrite Lo. simpl.
  destruct (midpoint_bounds h L) as [Ml Mu].
  destruct a.
  - apply yes_returns in E. destruct E as (_ & -> & _). simpl. split.
    + intro H. symmetry. apply Z.ltb_lt. lia.
    + intro H. symmetry in H. apply Z.ltb_lt in H. lia.
  - apply no_returns in E. destruct E as (_ & -> & _). simpl. split.
    + intro H. symmetry. apply Z.ltb_ge. lia.
    + intro H. symmetry in H. apply Z.ltb_ge in H. lia.
Qed.

(** X3: after any sequence of answers that the tracker accepted, the numbers
    from [low] to [high] are exactly the numbers of the range before that the
    answers are truthful for; so when the tracker is solved, its secret is the
    one number of the range that agrees with every answer given. *)
Theorem range_is_what_answers_allow (answers : list bool) (h h' : t) (x : Z) :
  low h <= high h ->
  record answers h = (Return tt, h') ->
  low h <= x <= high h ->
  (low h' <= x <= high h' <-> consistent x answers h) /\
  (low h' = high h' -> (consistent x answers h <-> x = low h')).
Proof.
  intros I R X.
  assert (Main : low h' <= x <= high h' <-> consistent x answers h).
  { revert h I R X. induction answers as [|a rest IH]; intros h I R X.
    - rewrite record_nil in R. injection R as <-. simpl. tauto.
    - rewrite record_cons in R.
      destruct ((if a then yes else no) h) as [[[]|e] h1] eqn:E; [|discriminate].
      assert (St : step h h1) by (destruct a; [apply step_yes|apply step_no]; exact E).
      destruct (step_narrows h h1 St I) as (A & I1 & B & _).
      pose proof (step_keeps_consistent a h h1 x E X) as K.
      pose proof (record_steps rest h1 h' R) as Ss.
      destruct (steps_narrow h1 h' Ss I1) as (A' & _ & B' & _).
      simpl. rewrite E. simpl. split.
      + intro H. assert (X1 : low h1 <= x <= high h1) by lia.
        split; [apply K; exact X1|]. apply (IH h1 I1 R X1). exact H.
      + intros [H1 H2]. assert (X1 : low h1 <= x <= high h1) by (apply K; exact H1).
        apply (IH h1 I1 R X1). exact H2. }
  split; [exact Main|]. intro S. rewrite <- Main. lia.
Qed.

Lemma range_is_what_answers_allow_witness :
  consistent 8 [false; true; false] (mk 1 10 10) /\
  ~ consistent 7 [false; true; false] (mk 1 10 10).
Proof.
  assert (I : low (mk 1 10 10) <= high (mk 1 10 10)) by (simpl; lia).
  assert (R : record [false; true; false] (mk 1 10 10) = (Return tt, mk 8 8 10))
    by reflexivity.
  split.
  - apply (proj2 (range_is_what_answers_allow _ _ _ 8 I R ltac:(simpl; lia))
             eq_refl).
    reflexivity.
  - intro C.
    apply (proj2 (range_is_what_answers_allow _ _ _ 7 I R ltac:(simpl; lia))
             eq_refl) in C.
    discriminate C.
Defined.

(** One answer leaves at least half of the candidates, rounded down. *)
Lemma step_leaves_half (h h' : t) :
  step h h' -> low h <= high h -> width h <= 2 * width h' + 1.
Proof.
  unfold width. intros S I.
  pose proof (Z_div_mod_eq_full (low h + high h) 2) as D1.
  pose proof (Z.mod_pos_bound (low h + high h) 2 eq_refl) as M1.
  destruct S as [h h' E|h h' E].
  - apply yes_returns in E. destruct E as (N & -> & L). unfold midpoint. cbn [low high]. lia.
  - apply no_returns in E. destruct E as (N & -> & L). unfold midpoint. cbn [low high]. lia.
Qed.

Lemma record_leaves (answers : list bool) :
  forall h h' : t,
    low h <= high h -> record answers h = (Return tt, h') ->
    width h + 1 <= 2 ^ Z.of_nat (List.length answers) * (width h' + 1).
Proof.
  induction answers as [|a rest IH]; intros h h' I R.
  - rewrite record_nil in R. injection R as <-.
    change (2 ^ Z.of_nat (List.length (@nil bool))) with 1. lia.
  - apply record_cons_returns in R. destruct R as (h1 & St & R).
    destruct (step_narrows h h1 St I) as (_ & I1 & _).
    pose proof (step_leaves_half h h1 St I) as Hh.
    specialize (IH h1 h' I1 R).
    change (List.length (a :: rest)) with (S (List.length rest)).
    rewrite Nat2Z.inj_succ, Z.pow_succ_r by lia. lia.
Qed.

(** X4: a game on [N] numbers is never over in fewer than [floor(log2(N))]
    answers, whatever the answers; with the upper bound, the number of answers
    of any game that ends is [floor(log2(N))] or [ceil(log2(N))]. *)
Theorem solved_after_log2_answers
  (minimum maximum : Z) (h0 h' : t) (answers : list bool) :
  __init__ minimum maximum = Return h0 ->
  record answers h0 = (Return tt, h') ->
  low h' = high h' ->
  Z.log2 (maximum - minimum + 1) <= Z.of_nat (List.length answers)
    <= Z.log2_up (maximum - minimum + 1).
Proof.
  intros E R S. split.
  - destruct (init_returns _ _ _ E) as (A & _ & _ & E0).
    assert (I : low h0 <= high h0) by (rewrite E0; exact A).
    pose proof (record_leaves answers h0 h' I R) as L.
    assert (W0 : width h0 = maximum - minimum + 1) by (rewrite E0; reflexivity).
    assert (W' : width h' = 1) by (unfold width; lia).
    rewrite W0, W' in L.
    assert (P : maximum - minimum + 1 < 2 ^ (Z.of_nat (List.length answers) + 1)).
    { rewrite Z.pow_add_r by lia. change (2 ^ 1) with 2. lia. }
    apply Z.log2_lt_pow2 in P; lia.
  - destruct (init_returns _ _ _ E) as (A & _ & _ & E0).
    assert (I : low h0 <= high h0) by (rewrite E0; exact A).
    assert (P : 0 <= Z.log2_up (maximum - minimum + 1)) by apply Z.log2_up_nonneg.
    assert (W : width h0 <= 2 ^ Z.of_nat (Z.to_nat (Z.log2_up (maximum - minimum + 1)))).
    { rewrite Z2Nat.id by exact P. rewrite E0. unfold width. cbn [low high].
      apply le_pow2_log2_up. lia. }
    pose proof (record_length_le _ answers h0 h' I W R). lia.
Qed.

Lemma solved_after_log2_answers_witness :
  Z.log2 (10 - 1 + 1) <= Z.of_nat (List.length [false; true; false])
    <= Z.log2_up (10 - 1 + 1).
Proof.
  apply (solved_after_log2_answers 1 10 (mk 1 10 10) (mk 8 8 10)); reflexivity.
Defined.

End TrackerMore.

(** ** More on reading the answers *)

Section AnswersMore.

Lemma all_space_app (a b : string) :
  all_space (a ++ b) = all_space a && all_space b.
Proof.
  induction a as [|c a IH]; [reflexivity|].
  simpl. rewrite IH. apply andb_assoc.
Qed.

Lemma lstrip_all_space (s : string) : all_space s = true -> lstrip s = "".
Proof.
  induction s as [|c s IH]; [reflexivity|].
  simpl. intro H. apply andb_true_iff in H. destruct H as [H1 H2].
  rewrite H1. apply IH. exact H2.
Qed.

Lemma rstrip_all_space (s : string) : all_space s = true -> rstrip s = "".
Proof.
  induction s as [|c s IH]; [reflexivity|].
  simpl. intro H. apply andb_true_iff in H. destruct H as [H1 H2].
  rewrite (IH H2), H1. reflexivity.
Qed.

Lemma lstrip_pad (pre s : string) :
  all_space pre = true -> lstrip (pre ++ s) = lstrip s.
Proof.
  induction pre as [|c pre IH]; [reflexivity|].
  simpl. intro H. apply andb_true_iff in H. destruct H as [H1 H2].
  rewrite H1. apply IH. exact H2.
Qed.

Lemma rstrip_pad (s post : string) :
  all_space post = true -> rstrip (s ++ post) = rstrip s.
Proof.
  intro H. induction s as [|c s IH].
  - simpl. apply rstrip_all_space. exact H.
  - simpl. rewrite IH. reflexivity.
Qed.

Lemma strip_pad_right (s post : string) :
  all_space post = true -> strip (s ++ post) = strip s.
Proof.
  intro H. unfold strip. induction s as [|c s IH].
  - simpl. rewrite (lstrip_all_space post H). reflexivity.
  - simpl. destruct (isspace c); [exact IH|].
    apply (rstrip_pad (String c s) post H).
Qed.

Lemma strip_pad (pre s post : string) :
  all_space pre = true -> all_space post = true ->
  strip (pre ++ s ++ post) = strip s.
Proof.
  intros H1 H2. unfold strip at 1. rewrite (lstrip_pad pre _ H1).
  apply (strip_pad_right s post H2).
Qed.

(** X5: whitespace around an answer does not count: a line gives the answer
    that the line without the whitespace before and after it gives, so a line
    of whitespace alone, as the empty line, is not recognised; and trimming a
    trimmed line changes nothing. *)
Theorem yes_no_ignores_surrounding_whitespace (pre line post : string) :
  all_space pre = true -> all_space post = true ->
  _yes_no (pre ++ line ++ post) = _yes_no line /\
  _yes_no (pre ++ post) = None /\
  strip (strip line) = strip line /\
  _yes_no (strip line) = _yes_no line.
Proof.
  intros H1 H2.
  assert (Idem : strip (strip line) = strip line).
  { destruct (strip_spec line) as (a & b & E & A & B & _).
    rewrite E at 2. symmetry. apply strip_pad; assumption. }
  split; [|split; [|split]].
  - unfold _yes_no. rewrite (strip_pad pre line post H1 H2). reflexivity.
  - unfold _yes_no.
    replace (pre ++ post) with (pre ++ "" ++ post) by reflexivity.
    rewrite (strip_pad pre "" post H1 H2). reflexivity.
  - exact Idem.
  - unfold _yes_no. rewrite Idem. reflexivity.
Qed.

Lemma yes_no_ignores_surrounding_whitespace_witness :
  _yes_no ("  " ++ "Yes" ++ " ") = _yes_no "Yes".
Proof.
  exact (proj1 (yes_no_ignores_surrounding_whitespace "  " "Yes" " "
                  eq_refl eq_refl)).
Defined.

Lemma ask_found (junk : list string) (good : string) (rest : list string) (b : bool) :
  Forall (fun l => _yes_no l = None) junk -> _yes_no good = Some b ->
  ask (junk ++ good :: rest) = Some (b, List.length junk, rest).
Proof.
  intros J G. induction J as [|l junk L J IH].
  - simpl. rewrite G. reflexivity.
  - simpl. rewrite L. simpl in IH. rewrite IH. reflexivity.
Qed.

Lemma ask_not_found (lines : list string) :
  Forall (fun l => _yes_no l = None) lines -> ask lines = None.
Proof.
  intro J. induction J as [|l lines L J IH]; [reflexivity|].
  simpl. rewrite L, IH. reflexivity.
Qed.

Lemma ask_split (lines : list string) :
  match ask lines with
  | Some (b, n, rest) =>
      exists junk good,
        lines = (junk ++ good :: rest)%list /\ List.length junk = n /\
        Forall (fun l => _yes_no l = None) junk /\ _yes_no good = Some b
  | None => Forall (fun l => _yes_no l = None) lines
  end.
Proof.
  induction lines as [|l lines IH]; [constructor|].
  simpl. destruct (_yes_no l) as [b|] eqn:E.
  - exists [], l. repeat split; [constructor|exact E].
  - destruct (ask lines) as [[[b n] rest]|].
    + destruct IH as (junk & good & E1 & E2 & J & G).
      exists (l :: junk), good. rewrite E1. simpl. rewrite E2.
      repeat split; [constructor; assumption|exact G].
    + constructor; assumption.
Qed.

(** X6: the answer read for a question is the first line that is recognised:
    the lines before it are the unrecognised ones, each costs one prompt
    "yes or no?", and the lines after it are left unread; no answer is read
    exactly when no line is recognised. *)
Theorem ask_reads_first_recognised
  (lines : list string) (b : bool) (n : nat) (rest : list string) :
  (ask lines = Some (b, n, rest) <->
   exists junk good,
     lines = (junk ++ good :: rest)%list /\ List.length junk = n /\
     Forall (fun l => _yes_no l = None) junk /\ _yes_no good = Some b) /\
  (ask lines = None <-> Forall (fun l => _yes_no l = None) lines).
Proof.
  pose proof (ask_split lines) as S. split; split.
  - intro E. rewrite E in S. exact S.
  - intros (junk & good & -> & <- & J & G). apply ask_found; assumption.
  - intro E. rewrite E in S. exact S.
  - apply ask_not_found.
Qed.

Lemma recognised_cons (l : string) (lines : list string) :
  recognised (l :: lines) =
  match _yes_no l with
  | Some b => b :: recognised lines
  | None => recognised lines
  end.
Proof. unfold recognised. simpl. destruct (_yes_no l); reflexivity. Qed.

Lemma recognised_app (a b : list string) :
  recognised (a ++ b) = (recognised a ++ recognised b)%list.
Proof. unfold recognised. apply flat_map_app. Qed.

(** What [ask] reads is the first of the recognised answers. *)
Lemma ask_recognised (lines : list string) :
  match ask lines with
  | Some (b, n, rest) =>
      recognised lines = b :: recognised rest /\
      exists used, lines = (used ++ rest)%list /\ recognised used = [b]
  | None => recognised lines = []
  end.
Proof.
  induction lines as [|l lines IH]; [reflexivity|].
  rewrite recognised_cons. simpl. destruct (_yes_no l) as [b|] eqn:E.
  - split; [reflexivity|]. exists [l]. split; [reflexivity|].
    rewrite recognised_cons, E. reflexivity.
  - destruct (ask lines) as [[[b n] rest]|]; [|exact IH].
    destruct IH as (R & used & -> & U). split; [exact R|].
    exists (l :: used). split; [reflexivity|].
    rewrite recognised_cons, E. exact U.
Qed.

End AnswersMore.

(** ** The program *)

Section ProgramFacts.
Import HiLo Driver.
Context {F : FloatArith}.
Variable percent : float -> string.
Variable py_int : string -> option Z.

Lemma count_events_app (f : event -> bool) (a b : list event) :
  count_events f (a ++ b) = (count_events f a + count_events f b)%nat.
Proof. unfold count_events. rewrite filter_app. apply length_app. Qed.

Lemma count_events_reprompts (f : event -> bool) (n : nat) :
  f (Prompt "  yes or no? ") = false ->
  count_events f (repeat (Prompt "  yes or no? ") n) = O.
Proof.
  intro E. unfold count_events. induction n as [|n IH]; [reflexivity|].
  simpl. rewrite E. exact IH.
Qed.

Lemma count_events_one (f : event -> bool) (e : event) :
  f e = false -> count_events f [e] = O.
Proof. intro E. unfold count_events. cbn [filter]. rewrite E. reflexivity. Qed.

(** The loop that asks again reads what [ask] reads, one prompt per line. *)
Lemma yes_or_no_loop_ask (lines : list string) :
  forall out,
    yes_or_no_loop lines out =
    match ask lines with
    | Some (b, n, rest) =>
        (Done b, mkWorld rest (out ++ repeat (Prompt "  yes or no? ") (S n)))
    | None =>
        (Fail EOFError,
         mkWorld [] (out ++ repeat (Prompt "  yes or no? ") (S (List.length lines))))
    end.
Proof.
  induction lines as [|l lines IH]; intro out; [reflexivity|].
  simpl. destruct (_yes_no l) as [b|]; [reflexivity|].
  rewrite IH. destruct (ask lines) as [[[b n] rest]|];
    simpl; rewrite <- app_assoc; reflexivity.
Qed.

Lemma read_answer_ask (q : string) (h : t) (w : world) :
  read_answer q (h, w) =
  match ask (stdin w) with
  | Some (b, n, rest) =>
      Some (Done b,
            (h, mkWorld rest (stdout w ++ Prompt q :: repeat (Prompt "  yes or no? ") n)))
  | None =>
      Some (Fail EOFError,
            (h, mkWorld [] (stdout w ++ Prompt q ::
                              repeat (Prompt "  yes or no? ") (List.length (stdin w)))))
  end.
Proof.
  unfold read_answer, pm_bind, input. cbn [fst snd].
  destruct (stdin w) as [|l lines]; [reflexivity|].
  cbn [ask]. destruct (_yes_no l) as [b|]; [reflexivity|].
  cbn [fst snd stdin stdout]. rewrite yes_or_no_loop_ask.
  destruct (ask lines) as [[[b n] rest]|];
    simpl; rewrite <- app_assoc; reflexivity.
Qed.

(** The range [choices] returns is never empty, so the question is built
    without an [IndexError]. *)
Lemma question_ok (c : range) :
  start c < stop c ->
  exists q, question c = Done q /\ is_question (Prompt q) = true /\
            is_usage (Prompt q) = false.
Proof.
  intro H. unfold question, range_getitem, range_len.
  rewrite Z.max_r by lia.
  assert (E0 : ((0 <=? 0) && (0 <? stop c - start c)) = true).
  { apply andb_true_iff. split; [apply Z.leb_le|apply Z.ltb_lt]; lia. }
  assert (E1 : ((0 <=? -1 + (stop c - start c)) &&
                (-1 + (stop c - start c) <? stop c - start c)) = true).
  { apply andb_true_iff. split; [apply Z.leb_le|apply Z.ltb_lt]; lia. }
  cbn [Z.ltb Z.compare]. rewrite E0.
  destruct (stop c - start c =? 1).
  - eexists. split; [reflexivity|]. split; reflexivity.
  - rewrite E1. eexists. split; [reflexivity|]. split; reflexivity.
Qed.

Lemma progress_good (h : t) :
  low h <= high h -> width h <= size h ->
  progress h = (Return (progress_at h), h).
Proof.
  intros I W. unfold progress_at. unfold width in W.
  destruct (low h =? high h) eqn:E.
  - apply progress_solved. apply Z.eqb_eq. exact E.
  - apply Z.eqb_neq in E. apply progress_ok; lia.
Qed.

Lemma answered_step (b : bool) (h : t) :
  low h < high h ->
  (if b then yes else no) h = (Return tt, answered b h) /\ step h (answered b h).
Proof.
  intro L. unfold answered. destruct b.
  - split; [apply yes_ok; exact L|]. apply step_yes, yes_ok, L.
  - split; [apply no_ok; exact L|]. apply step_no, no_ok, L.
Qed.

Lemma play_loop_solved (fuel : nat) (h : t) (w : world) :
  low h = high h -> play_loop percent fuel (h, w) = Some (Done tt, (h, w)).
Proof.
  intro E. apply is_solved_true in E.
  destruct fuel; cbn [play_loop]; unfold pm_bind at 1, call at 1; cbn [fst snd];
    rewrite solved_eq, E; reflexivity.
Qed.

(** One iteration of the loop of [_play] on an unsolved state. *)
Lemma play_loop_step (h : t) :
  low h < high h -> width h <= size h ->
  exists q,
    is_question (Prompt q) = true /\ is_usage (Prompt q) = false /\
    forall (fuel : nat) (w : world),
      play_loop percent (S fuel) (h, w) =
      match ask (stdin w) with
      | Some (b, n, rest) =>
          play_loop percent fuel
            (answered b h,
             mkWorld rest
               ((stdout w ++ Prompt q :: repeat (Prompt "  yes or no? ") n) ++
                [Print ("I'm " ++ percent (progress_at (answered b h)) ++ "% done.")]))
      | None =>
          Some (Fail EOFError,
                (h, mkWorld [] (stdout w ++ Prompt q ::
                                  repeat (Prompt "  yes or no? ") (List.length (stdin w)))))
      end.
Proof.
  intros L W.
  destruct (midpoint_bounds h L) as [Ml Mu].
  destruct (question_ok (mkRange (low h) (midpoint h + 1))) as (q & Q & Q1 & Q2);
    [simpl; lia|].
  exists q. split; [exact Q1|]. split; [exact Q2|]. intros fuel w.
  assert (E : is_solved h = false) by (apply is_solved_false; lia).
  cbn [play_loop]. unfold pm_bind at 1, call at 1. cbn [fst snd].
  rewrite solved_eq, E.
  unfold pm_bind at 1, call at 1. cbn [fst snd]. rewrite (choices_ok h L).
  unfold pm_bind at 1, pm_lift at 1. rewrite Q.
  unfold pm_bind at 1. rewrite read_answer_ask.
  destruct (ask (stdin w)) as [[[b n] rest]|]; [|reflexivity].
  destruct (answered_step b h L) as [A St].
  unfold pm_bind at 1, call at 1. cbn [fst snd]. rewrite A.
  destruct (step_narrows h _ St) as (_ & I1 & _ & Z1 & W1); [lia|].
  unfold pm_bind at 1, call at 1. cbn [fst snd].
  rewrite (progress_good (answered b h)) by lia.
  unfold pm_bind at 1, print at 1. cbn [fst snd stdin stdout].
  reflexivity.
Qed.

Lemma record_app (a b : list bool) :
  forall h : t,
    record (a ++ b) h =
    match record a h with
    | (Return _, h1) => record b h1
    | (Raise e, h1) => (Raise e, h1)
    end.
Proof.
  induction a as [|x a IH]; intro h; [reflexivity|].
  change ((x :: a) ++ b)%list with (x :: (a ++ b))%list.
  rewrite !record_cons.
  destruct ((if x then yes else no) h) as [[[]|e] h1]; [apply IH|reflexivity].
Qed.

(** The answers either solve the tracker on the way, or are all accepted and
    leave it unsolved. *)
Lemma record_or_solve (l : list bool) :
  forall h : t,
    low h <= high h ->
    (exists a m h', l = (a ++ m)%list /\ record a h = (Return tt, h') /\
                    low h' = high h') \/
    (exists h', record l h = (Return tt, h') /\ low h' < high h').
Proof.
  induction l as [|x l IH]; intros h I.
  - destruct (Z.eq_dec (low h) (high h)) as [E|N].
    + left. exists [], [], h. repeat split. exact E.
    + right. exists h. split; [reflexivity|lia].
  - destruct (Z.eq_dec (low h) (high h)) as [E|N].
    + left. exists [], (x :: l), h. repeat split. exact E.
    + assert (L : low h < high h) by lia.
      destruct (answered_step x h L) as [A St].
      destruct (step_narrows h _ St I) as (_ & I1 & _).
      destruct (IH (answered x h) I1) as [(a & m & h' & -> & R & S)|(h' & R & S)].
      * left. exists (x :: a), m, h'. split; [reflexivity|].
        split; [|exact S]. rewrite record_cons, A. exact R.
      * right. exists h'. split; [|exact S]. rewrite record_cons, A. exact R.
Qed.

(** An unsolved tracker accepts one answer more. *)
Lemma record_unsolved_length (k : nat) (answers : list bool) (h h' : t) :
  low h <= high h -> width h <= 2 ^ Z.of_nat k ->
  record answers h = (Return tt, h') -> low h' < high h' ->
  (List.length answers < k)%nat.
Proof.
  intros I W R U.
  assert (R1 : record (answers ++ [true]) h = (Return tt, answered true h')).
  { rewrite record_app, R, record_cons.
    rewrite (proj1 (answered_step true h' U)). reflexivity. }
  pose proof (record_length_le k _ h _ I W R1) as Len.
  rewrite length_app in Len. simpl in Len. lia.
Qed.

Lemma count_iteration (q x : string) (n : nat) :
  is_question (Prompt q) = true -> is_usage (Prompt q) = false ->
  count_events is_question
    (Prompt q :: repeat (Prompt "  yes or no? ") n ++ [Print ("I'm " ++ x ++ "% done.")])
    = 1%nat /\
  count_events is_usage
    (Prompt q :: repeat (Prompt "  yes or no? ") n ++ [Print ("I'm " ++ x ++ "% done.")])
    = O.
Proof.
  intros Q1 Q2.
  change (Prompt q :: repeat (Prompt "  yes or no? ") n ++ [Print ("I'm " ++ x ++ "% done.")])
    with ([Prompt q] ++ repeat (Prompt "  yes or no? ") n ++
          [Print ("I'm " ++ x ++ "% done.")])%list.
  rewrite !count_events_app.
  rewrite !count_events_reprompts by reflexivity.
  unfold count_events. cbn [filter]. rewrite Q1, Q2.
  split; reflexivity.
Qed.

Lemma events_assoc (out : list event) (e p : event) (r evs : list event) :
  (((out ++ e :: r) ++ [p]) ++ evs = out ++ (e :: r ++ [p]) ++ evs)%list.
Proof.
  repeat (rewrite <- app_assoc || rewrite <- app_comm_cons). reflexivity.
Qed.

(** When the recognised answers of the input begin with answers that solve
    the tracker, the loop of [_play] ends there: it has asked one question for
    each of these answers, and the answers after them are still to be read. *)
Lemma play_loop_complete (answers : list bool) :
  forall (h h' : t) (w : world) (more : list bool) (fuel : nat),
    low h <= high h -> width h <= size h ->
    record answers h = (Return tt, h') -> low h' = high h' ->
    recognised (stdin w) = (answers ++ more)%list ->
    (List.length answers <= fuel)%nat ->
    exists w' evs,
      play_loop percent fuel (h, w) = Some (Done tt, (h', w')) /\
      stdout w' = (stdout w ++ evs)%list /\
      recognised (stdin w') = more /\
      (exists used, stdin w = (used ++ stdin w')%list) /\
      count_events is_question evs = List.length answers /\
      count_events is_usage evs = O.
Proof.
  induction answers as [|a rest IH]; intros h h' w more fuel I W R S Rec Len.
  - rewrite record_nil in R. injection R as <-.
    exists w, []. rewrite (play_loop_solved fuel h w S), app_nil_r.
    repeat split. + exact Rec. + exists []. reflexivity.
  - destruct (Z.eq_dec (low h) (high h)) as [E|N].
    { rewrite record_cons in R. apply is_solved_true in E.
      destruct a; [rewrite (yes_solved h E) in R|rewrite (no_solved h E) in R];
        discriminate. }
    assert (L : low h < high h) by lia.
    destruct fuel as [|fuel]; [simpl in Len; lia|].
    destruct (play_loop_step h L W) as (q & Q1 & Q2 & Eq). rewrite Eq.
    pose proof (ask_recognised (stdin w)) as AR.
    destruct (ask (stdin w)) as [[[b n] lines]|];
      [|rewrite AR in Rec; discriminate].
    destruct AR as (AR & used & U1 & U2).
    rewrite AR in Rec. simpl in Rec. injection Rec as -> Rec.
    destruct (answered_step a h L) as [A St].
    rewrite record_cons, A in R.
    destruct (step_narrows h _ St I) as (_ & I1 & _ & Z1 & W1).
    destruct (IH (answered a h) h'
                (mkWorld lines
                   ((stdout w ++ Prompt q :: repeat (Prompt "  yes or no? ") n) ++
                    [Print ("I'm " ++ percent (progress_at (answered a h)) ++ "% done.")]))
                more fuel I1 ltac:(lia) R S Rec ltac:(simpl in Len; lia))
      as (w' & evs & P & Out & Rest & (used' & U') & Cq & Cu).
    cbn [stdin stdout] in Out, U'.
    destruct (count_iteration q (percent (progress_at (answered a h))) n Q1 Q2)
      as [Kq Ku].
    exists w',
      ((Prompt q :: repeat (Prompt "  yes or no? ") n ++
        [Print ("I'm " ++ percent (progress_at (answered a h)) ++ "% done.")]) ++ evs)%list.
    split; [exact P|]. split; [|split; [exact Rest|split; [|split]]].
    + rewrite Out. apply events_assoc.
    + exists (used ++ used')%list. rewrite U1, U'. apply app_assoc.
    + rewrite count_events_app, Kq, Cq. reflexivity.
    + rewrite count_events_app, Ku, Cu. reflexivity.
Qed.

(** When the recognised answers of the input are all accepted and leave the
    tracker unsolved, the loop of [_play] stops on [EOFError] after one more
    question, with the input read to its end. *)
Lemma play_loop_eof (answers : list bool) :
  forall (h h' : t) (w : world) (fuel : nat),
    low h <= high h -> width h <= size h ->
    record answers h = (Return tt, h') -> low h' < high h' ->
    recognised (stdin w) = answers ->
    (List.length answers < fuel)%nat ->
    exists w' evs,
      play_loop percent fuel (h, w) = Some (Fail EOFError, (h', w')) /\
      stdout w' = (stdout w ++ evs)%list /\
      stdin w' = [] /\
      count_events is_question evs = S (List.length answers) /\
      count_events is_usage evs = O.
Proof.
  induction answers as [|a rest IH]; intros h h' w fuel I W R S Rec Len.
  - rewrite record_nil in R. injection R as <-.
    destruct fuel as [|fuel]; [simpl in Len; lia|].
    destruct (play_loop_step h S W) as (q & Q1 & Q2 & Eq). rewrite Eq.
    pose proof (ask_recognised (stdin w)) as AR.
    destruct (ask (stdin w)) as [[[b n] lines]|].
    { destruct AR as (AR & _). rewrite AR in Rec. discriminate. }
    eexists. eexists. split; [reflexivity|]. cbn [stdin stdout].
    split; [reflexivity|]. split; [reflexivity|].
    change (Prompt q :: repeat (Prompt "  yes or no? ") (List.length (stdin w)))
      with ([Prompt q] ++ repeat (Prompt "  yes or no? ") (List.length (stdin w)))%list.
    rewrite !count_events_app, !count_events_reprompts by reflexivity.
    unfold count_events. cbn [filter]. rewrite Q1, Q2. split; reflexivity.
  - destruct (Z.eq_dec (low h) (high h)) as [E|N].
    { rewrite record_cons in R. apply is_solved_true in E.
      destruct a; [rewrite (yes_solved h E) in R|rewrite (no_solved h E) in R];
        discriminate. }
    assert (L : low h < high h) by lia.
    destruct fuel as [|fuel]; [simpl in Len; lia|].
    destruct (play_loop_step h L W) as (q & Q1 & Q2 & Eq). rewrite Eq.
    pose proof (ask_recognised (stdin w)) as AR.
    destruct (ask (stdin w)) as [[[b n] lines]|];
      [|rewrite AR in Rec; discriminate].
    destruct AR as (AR & _).
    rewrite AR in Rec. injection Rec as -> Rec.
    destruct (answered_step a h L) as [A St].
    rewrite record_cons, A in R.
    destruct (step_narrows h _ St I) as (_ & I1 & _ & Z1 & W1).
    destruct (IH (answered a h) h'
                (mkWorld lines
                   ((stdout w ++ Prompt q :: repeat (Prompt "  yes or no? ") n) ++
                    [Print ("I'm " ++ percent (progress_at (answered a h)) ++ "% done.")]))
                fuel I1 ltac:(lia) R S Rec ltac:(simpl in Len; lia))
      as (w' & evs & P & Out & In & Cq & Cu).
    cbn [stdin stdout] in Out.
    destruct (count_iteration q (percent (progress_at (answered a h))) n Q1 Q2)
      as [Kq Ku].
    exists w',
      ((Prompt q :: repeat (Prompt "  yes or no? ") n ++
        [Print ("I'm " ++ percent (progress_at (answered a h)) ++ "% done.")]) ++ evs)%list.
    split; [exact P|]. split; [|split; [exact In|split]].
    + rewrite Out. apply events_assoc.
    + rewrite count_events_app, Kq, Cq. reflexivity.
    + rewrite count_events_app, Ku, Cu. reflexivity.
Qed.

(** The loop of [_play] on any input. *)
Lemma play_loop_run (k fuel : nat) (h : t) (w : world) :
  low h <= high h -> width h <= size h ->
  width h <= 2 ^ Z.of_nat k -> (k <= fuel)%nat ->
  exists r h' w' evs answers,
    play_loop percent fuel (h, w) = Some (r, (h', w')) /\
    record answers h = (Return tt, h') /\
    stdout w' = (stdout w ++ evs)%list /\
    count_events is_usage evs = O /\
    (count_events is_question evs <= k)%nat /\
    ((r = Done tt /\ low h' = high h' /\
      exists used, stdin w = (used ++ stdin w')%list) \/
     (r = Fail EOFError /\ low h' < high h' /\ stdin w' = [])).
Proof.
  intros I W K Kf.
  destruct (record_or_solve (recognised (stdin w)) h I)
    as [(a & m & h' & E & R & S)|(h' & R & S)].
  - pose proof (record_length_le k a h h' I K R) as La.
    destruct (play_loop_complete a h h' w m fuel I W R S E ltac:(lia))
      as (w' & evs & P & Out & _ & U & Cq & Cu).
    exists (Done tt), h', w', evs, a.
    split; [exact P|]. split; [exact R|]. split; [exact Out|].
    split; [exact Cu|]. split; [lia|]. left. repeat split; assumption.
  - pose proof (record_unsolved_length k _ h h' I K R S) as La.
    destruct (play_loop_eof _ h h' w fuel I W R S eq_refl ltac:(lia))
      as (w' & evs & P & Out & In & Cq & Cu).
    exists (Fail EOFError), h', w', evs, (recognised (stdin w)).
    split; [exact P|]. split; [exact R|]. split; [exact Out|].
    split; [exact Cu|]. split; [lia|]. right. repeat split; assumption.
Qed.

(** [_play] around its loop: the first line before, the number after. *)
Lemma play_unfold (fuel : nat) (h : t) (w : world) :
  _play percent fuel (h, w) =
  match play_loop percent fuel
          (h, mkWorld (stdin w)
                (stdout w ++
                 [Print ("Playing HiLo between " ++ str (low h) ++ " and " ++
                         str (high h) ++ ".")]))
  with
  | Some (Done _, (h', w')) =>
      match secret h' with
      | (Return v, h'') =>
          Some (Done tt,
                (h'', mkWorld (stdin w') (stdout w' ++ [Print ("Your number is: " ++ str v)])))
      | (Raise e, h'') => Some (Fail (Exn e), (h'', w'))
      end
  | Some (Fail e, hw') => Some (Fail e, hw')
  | None => None
  end.
Proof.
  unfold _play. unfold pm_bind at 1, call at 1, get at 1. cbn [fst snd].
  unfold pm_bind at 1, call at 1, get at 1. cbn [fst snd].
  unfold pm_bind at 1, print at 1. cbn [fst snd].
  unfold pm_bind at 1.
  destruct (play_loop percent fuel _) as [[[u|e] [h' w']]|]; [|reflexivity|reflexivity].
  unfold pm_bind, call, print. cbn [fst snd].
  destruct (secret h') as [[v|e] h'']; reflexivity.
Qed.

Lemma reachable_good (h : t) :
  reachable h ->
  low h <= high h /\ width h <= size h /\
  width h <= 2 ^ Z.of_nat (Z.to_nat (Z.log2_up (width h))).
Proof.
  intro R. destruct (reachable_inv h R) as (_ & I & _ & W).
  split; [exact I|]. split; [exact W|].
  rewrite Z2Nat.id by apply Z.log2_up_nonneg.
  apply le_pow2_log2_up. unfold width. lia.
Qed.

(** A game on a tracker, on any input. *)
Lemma play_run (fuel : nat) (h : t) (w : world) :
  reachable h -> Z.log2_up (width h) <= Z.of_nat fuel ->
  exists r h' w' evs answers,
    _play percent fuel (h, w) = Some (r, (h', w')) /\
    record answers h = (Return tt, h') /\
    stdout w' =
      (stdout w ++
       Print ("Playing HiLo between " ++ str (low h) ++ " and " ++ str (high h) ++ ".")
       :: evs)%list /\
    count_events is_usage evs = O /\
    Z.of_nat (count_events is_question evs) <= Z.log2_up (width h) /\
    ((r = Done tt /\ low h' = high h' /\
      (exists used, stdin w = (used ++ stdin w')%list) /\
      exists evs0, evs = (evs0 ++ [Print ("Your number is: " ++ str (low h'))])%list) \/
     (r = Fail EOFError /\ low h' < high h' /\ stdin w' = [])).
Proof.
  intros R Fu. destruct (reachable_good h R) as (I & W & K).
  pose proof (Z.log2_up_nonneg (width h)) as Nn.
  rewrite play_unfold.
  destruct (play_loop_run (Z.to_nat (Z.log2_up (width h))) fuel h
              (mkWorld (stdin w)
                 (stdout w ++
                  [Print ("Playing HiLo between " ++ str (low h) ++ " and " ++
                          str (high h) ++ ".")]))
              I W K ltac:(lia))
    as (r & h' & w' & evs & answers & P & Rc & Out & Cu & Cq & [(-> & S & U)|(-> & S & In)]).
  - rewrite P. apply is_solved_true in S. rewrite (secret_solved h' S).
    apply is_solved_true in S.
    eexists. exists h'. eexists.
    exists (evs ++ [Print ("Your number is: " ++ str (low h'))])%list, answers.
    split; [reflexivity|]. split; [exact Rc|]. cbn [stdin stdout] in *.
    split; [rewrite Out, <- !app_assoc; reflexivity|].
    rewrite !count_events_app.
    rewrite (count_events_one is_question), (count_events_one is_usage)
      by reflexivity.
    split; [lia|]. split; [lia|].
    left. split; [reflexivity|]. split; [exact S|]. split; [exact U|].
    exists evs. reflexivity.
  - rewrite P. exists (Fail EOFError), h', w', evs, answers.
    split; [reflexivity|]. split; [exact Rc|]. cbn [stdin stdout] in *.
    split; [rewrite Out, <- app_assoc; reflexivity|].
    split; [exact Cu|]. split; [lia|].
    right. repeat split; assumption.
Qed.


(** X8: a game on a tracker with [N] numbers left asks [ceil(log2(N))]
    questions at most, whatever the input; its first line tells the range, and
    it never prints the usage. *)
Theorem play_asks_at_most_log2_questions (fuel : nat) (h : t) (w : world) :
  reachable h -> Z.log2_up (width h) <= Z.of_nat fuel ->
  exists r h' w' evs,
    _play percent fuel (h, w) = Some (r, (h', w')) /\
    stdout w' =
      (stdout w ++
       Print ("Playing HiLo between " ++ str (low h) ++ " and " ++ str (high h) ++ ".")
       :: evs)%list /\
    Z.of_nat (count_events is_question evs) <= Z.log2_up (width h) /\
    count_events is_usage evs = O.
Proof.
  intros R Fu.
  destruct (play_run fuel h w R Fu)
    as (r & h' & w' & evs & answers & P & _ & Out & Cu & Cq & _).
  exists r, h', w', evs. repeat split; assumption.
Qed.

Lemma truthful_script_solves (x : Z) (k : nat) :
  forall h : t,
    low h <= x <= high h -> width h <= 2 ^ Z.of_nat k ->
    exists h',
      record (truthful_script x k h) h = (Return tt, h') /\
      low h' = x /\ high h' = x /\
      (List.length (truthful_script x k h) <= k)%nat.
Proof.
  induction k as [|k IH]; intros h X W.
  - exists h. unfold width in W. simpl in W. repeat split; try lia. apply Nat.le_refl.
  - destruct (Z.eq_dec (low h) (high h)) as [E|N].
    + exists h. cbn [truthful_script].
      rewrite (choices_solved h) by (apply is_solved_true; exact E).
      repeat split; try lia. apply Nat.le_0_l.
    + assert (L : low h < high h) by lia. assert (I : low h <= high h) by lia.
      cbn [truthful_script]. rewrite (choices_ok h L). cbv zeta.
      set (a := range_mem x (mkRange (low h) (midpoint h + 1))).
      destruct (answered_step a h L) as [A St]. rewrite A. cbn [snd].
      pose proof (step_keeps_consistent a h (answered a h) x A X) as Keep.
      rewrite (choices_ok h L) in Keep.
      assert (X1 : low (answered a h) <= x <= high (answered a h))
        by (apply Keep; reflexivity).
      pose proof (step_halves h _ St I) as Hh.
      pose proof (half_le_pow2 (width h) k W) as Hp.
      destruct (IH (answered a h) X1 ltac:(lia)) as (h' & R & Lo & Hi & Len).
      exists h'. split; [rewrite record_cons, A; exact R|].
      split; [exact Lo|]. split; [exact Hi|]. simpl. lia.
Qed.

(** X9: when the player tells the truth about a number [x] of the range, that
    is when the answers recognised in the input begin with the truthful ones
    for [x], whatever lines are not recognised in between, [_play] returns and
    its last line is "Your number is: " with [x]. *)
Theorem play_finds_the_number_of_a_truthful_player
  (fuel : nat) (h : t) (w : world) (x : Z) (more : list bool) :
  reachable h -> low h <= x <= high h ->
  Z.log2_up (width h) <= Z.of_nat fuel ->
  recognised (stdin w) = (truthful_script x fuel h ++ more)%list ->
  exists h' w' evs,
    _play percent fuel (h, w) = Some (Done tt, (h', w')) /\
    low h' = x /\ high h' = x /\
    stdout w' = (stdout w ++ evs ++ [Print ("Your number is: " ++ str x)])%list /\
    recognised (stdin w') = more.
Proof.
  intros R X Fu Rec. destruct (reachable_good h R) as (I & W & K).
  assert (Wf : width h <= 2 ^ Z.of_nat fuel).
  { apply Z.le_trans with (2 ^ Z.log2_up (width h)).
    - apply le_pow2_log2_up. unfold width. lia.
    - apply Z.pow_le_mono_r; lia. }
  destruct (truthful_script_solves x fuel h X Wf) as (h' & Rc & Lo & Hi & Len).
  rewrite play_unfold.
  destruct (play_loop_complete (truthful_script x fuel h) h h'
              (mkWorld (stdin w)
                 (stdout w ++
                  [Print ("Playing HiLo between " ++ str (low h) ++ " and " ++
                          str (high h) ++ ".")]))
              more fuel I W Rc ltac:(lia) Rec Len)
    as (w' & evs & P & Out & Rest & _).
  rewrite P. rewrite (secret_solved h') by (apply is_solved_true; lia).
  exists h'. eexists.
  exists (Print ("Playing HiLo between " ++ str (low h) ++ " and " ++
                 str (high h) ++ ".") :: evs).
  split; [reflexivity|]. split; [exact Lo|]. split; [exact Hi|].
  cbn [stdin stdout] in *. split; [|exact Rest].
  rewrite Out, Lo.
  repeat (rewrite <- app_assoc || rewrite <- app_comm_cons). reflexivity.
Qed.

Lemma nth_1_of_two (argv : list string) :
  List.length argv = 2%nat -> exists a, argv = [a; nth 1 argv ""].
Proof.
  destruct argv as [|a [|b [|c argv]]]; simpl; intro H; try discriminate.
  exists a. reflexivity.
Qed.

(** X10: [main] prints the usage, and nothing else, reads no input and
    returns, when it is not given exactly one argument, when the argument is
    not an integer for [int], and when it is an integer below 1 or above
    999_999_999. *)
Theorem main_prints_usage (fuel : nat) (argv : list string) (w : world) :
  (List.length argv <> 2%nat \/
   py_int (nth 1 argv "") = None \/
   exists maximum,
     py_int (nth 1 argv "") = Some maximum /\
     (maximum < 1 \/ 1000000000 <= maximum)) ->
  main percent py_int fuel argv w = Some (Done tt, _usage w) /\
  stdin (_usage w) = stdin w /\
  stdout (_usage w) = (stdout w ++ [Print "Usage: HiLo <max>"])%list.
Proof.
  intro H. split; [|split; reflexivity].
  unfold main.
  destruct (Nat.eqb (List.length argv) 2) eqn:Len; [|reflexivity].
  cbn [negb]. destruct H as [H|[H|(m & H & B)]].
  - apply Nat.eqb_eq in Len. contradiction.
  - rewrite H. reflexivity.
  - rewrite H. unfold upto. destruct B as [B|B].
    + rewrite init_empty by lia. reflexivity.
    + rewrite init_too_large by lia. reflexivity.
Qed.


End ProgramFacts.

(** The properties of the program on the game from 1 to 10, in real
    arithmetic, with a percentage that is always written "50" and an [int]
    that reads "10" only. *)
Lemma reachable_1_10 : reachable (HiLo.mk 1 10 10).
Proof.
  exists 1, 10, (HiLo.mk 1 10 10). split; [reflexivity|apply steps_refl].
Qed.


Lemma play_asks_at_most_log2_questions_witness :
  exists r h' w',
    @_play RealArith (fun _ => "50") 4
      (HiLo.mk 1 10 10, mkWorld ["no"; "maybe"] []) = Some (r, (h', w')).
Proof.
  destruct (@play_asks_at_most_log2_questions RealArith (fun _ => "50") 4
              (HiLo.mk 1 10 10) (mkWorld ["no"; "maybe"] []) reachable_1_10
              ltac:(vm_compute; discriminate))
    as (r & h' & w' & _ & P & _).
  exists r, h', w'. exact P.
Defined.

Lemma play_finds_the_number_of_a_truthful_player_witness :
  exists h' w',
    @_play RealArith (fun _ => "50") 4
      (HiLo.mk 1 10 10, mkWorld ["no"; "what?"; " y"; "N"; "yes"] [])
    = Some (Done tt, (h', w')) /\
    HiLo.low h' = 8.
Proof.
  destruct (@play_finds_the_number_of_a_truthful_player RealArith (fun _ => "50") 4
              (HiLo.mk 1 10 10) (mkWorld ["no"; "what?"; " y"; "N"; "yes"] [])
              8 [true] reachable_1_10 ltac:(simpl; lia)
              ltac:(vm_compute; discriminate) eq_refl)
    as (h' & w' & _ & P & Lo & _).
  exists h', w'. split; [exact P|exact Lo].
Defined.

Lemma main_prints_usage_witness :
  @main RealArith (fun _ => "50")
    (fun s => if String.eqb s "10" then Some 10 else None)
    4 ["HiLo"; "ten"] (mkWorld ["yes"] [])
  = Some (Done tt, mkWorld ["yes"] [Print "Usage: HiLo <max>"]).
Proof.
  apply (@main_prints_usage RealArith (fun _ => "50")
           (fun s => if String.eqb s "10" then Some 10 else None)
           4 ["HiLo"; "ten"] (mkWorld ["yes"] [])).
  right. left. reflexivity.
Defined.


(** X12: on an unsolved tracker the question of [_play] names one number, the
    lower bound, exactly when two candidates are left; otherwise it names the
    lower bound and the midpoint, the two ends of the range that [choices]
    returns.  No [IndexError] arises. *)
Theorem question_names_the_proposed_range (h : HiLo.t) :
  reachable h -> HiLo.low h <> HiLo.high h ->
  exists c,
    HiLo.choices h = (Return c, h) /\
    range_getitem c 0 = Done (HiLo.low h) /\
    range_getitem c (-1) = Done (midpoint h) /\
    (range_len c = 1 <-> HiLo.high h - HiLo.low h = 1) /\
    question c =
      Done (if HiLo.high h - HiLo.low h =? 1
            then "Is your number " ++ str (HiLo.low h) ++ "? "
            else "Is your number between " ++ str (HiLo.low h) ++ " and " ++
                 str (midpoint h) ++ "? ").
Proof.
  intros R N. destruct (reachable_inv h R) as (_ & I & _ & _).
  assert (L : HiLo.low h < HiLo.high h) by lia.
  destruct (midpoint_bounds h L) as [Ml Mu].
  exists (mkRange (HiLo.low h) (midpoint h + 1)).
  split; [apply choices_ok; exact L|].
  assert (Len : range_len (mkRange (HiLo.low h) (midpoint h + 1))
                = midpoint h + 1 - HiLo.low h)
    by (unfold range_len; cbn [start stop]; lia).
  assert (G0 : range_getitem (mkRange (HiLo.low h) (midpoint h + 1)) 0
               = Done (HiLo.low h)).
  { unfold range_getitem. rewrite Len. cbn [start stop Z.ltb Z.compare].
    assert (E : ((0 <=? 0) && (0 <? midpoint h + 1 - HiLo.low h)) = true)
      by (apply andb_true_iff; split; [apply Z.leb_le|apply Z.ltb_lt]; lia).
    rewrite E. f_equal. lia. }
  assert (G1 : range_getitem (mkRange (HiLo.low h) (midpoint h + 1)) (-1)
               = Done (midpoint h)).
  { unfold range_getitem. rewrite Len. cbn [start stop Z.ltb Z.compare].
    assert (E : ((0 <=? -1 + (midpoint h + 1 - HiLo.low h)) &&
                 (-1 + (midpoint h + 1 - HiLo.low h) <? midpoint h + 1 - HiLo.low h))
                = true)
      by (apply andb_true_iff; split; [apply Z.leb_le|apply Z.ltb_lt]; lia).
    rewrite E. f_equal. lia. }
  assert (One : midpoint h + 1 - HiLo.low h = 1 <-> HiLo.high h - HiLo.low h = 1).
  { unfold midpoint in *.
    pose proof (Z_div_mod_eq_full (HiLo.low h + HiLo.high h) 2).
    pose proof (Z.mod_pos_bound (HiLo.low h + HiLo.high h) 2 eq_refl).
    lia. }
  split; [exact G0|]. split; [exact G1|]. split; [rewrite Len; exact One|].
  unfold question. rewrite G0, G1, Len.
  destruct (midpoint h + 1 - HiLo.low h =? 1) eqn:E1;
    destruct (HiLo.high h - HiLo.low h =? 1) eqn:E2; try reflexivity.
  - apply Z.eqb_eq in E1. apply Z.eqb_neq in E2. tauto.
  - apply Z.eqb_neq in E1. apply Z.eqb_eq in E2. tauto.
Qed.

Lemma question_names_the_proposed_range_witness :
  exists c,
    HiLo.choices (HiLo.mk 6 10 10) = (Return c, HiLo.mk 6 10 10) /\
    question c = Done "Is your number between 6 and 8? ".
Proof.
  destruct (question_names_the_proposed_range (HiLo.mk 6 10 10) reachable_6_10
              ltac:(simpl; lia))
    as (c & C & _ & _ & _ & Q).
  exists c. split; [exact C|exact Q].
Defined.
